(** * RATE framework: anchors, self-consistent solver and intersection finder

    A shallow embedding of [RATE_ZZ_robustness.py] and of the two model
    functions of [rate_simulation.py].

    Numbers.  A Python / NumPy double is modelled by [fl]: a real number, one of
    the two infinities, or not-a-number.  Arithmetic follows IEEE 754 on the
    special values (NaN is contagious, [inf - inf] and [0 * inf] are NaN, every
    ordered comparison with NaN is false).  Rounding is not modelled: on finite
    operands the operations are the exact real ones.  Signed zeros are not
    tracked; a zero divisor is taken as [+0].

    Library code.  [scipy.stats.norm.cdf] and [scipy.optimize.root_scalar] are
    not part of the repository; they are parameters of the development. *)

From Stdlib Require Import Reals Lra List Bool Arith Lia Sorted.
Import ListNotations.

Open Scope R_scope.

(** ** Floating-point values *)

Inductive fl : Type :=
| Num (x : R)
| PInf
| NInf
| NaN.

Definition Rltb (x y : R) : bool := if Rlt_dec x y then true else false.
Definition Rleb (x y : R) : bool := if Rle_dec x y then true else false.
Definition Reqb (x y : R) : bool := if Req_dec_T x y then true else false.

Definition isnan (a : fl) : bool :=
  match a with NaN => true | _ => false end.

Definition fneg (a : fl) : fl :=
  match a with
  | Num x => Num (- x)
  | PInf => NInf
  | NInf => PInf
  | NaN => NaN
  end.

Definition fadd (a b : fl) : fl :=
  match a, b with
  | NaN, _ | _, NaN => NaN
  | Num x, Num y => Num (x + y)
  | PInf, NInf | NInf, PInf => NaN
  | PInf, _ | _, PInf => PInf
  | NInf, _ | _, NInf => NInf
  end.

Definition fsub (a b : fl) : fl := fadd a (fneg b).

(** The infinity carrying the sign of [x]; NaN for [x = 0]. *)
Definition inf_of_sign (x : R) : fl :=
  if Rltb 0 x then PInf else if Rltb x 0 then NInf else NaN.

Definition fmul (a b : fl) : fl :=
  match a, b with
  | NaN, _ | _, NaN => NaN
  | Num x, Num y => Num (x * y)
  | Num x, PInf | PInf, Num x => inf_of_sign x
  | Num x, NInf | NInf, Num x => inf_of_sign (- x)
  | PInf, PInf | NInf, NInf => PInf
  | PInf, NInf | NInf, PInf => NaN
  end.

(** NumPy division: a zero divisor gives an infinity (or NaN for [0/0]) and a
    warning, never an exception. *)
Definition fdiv (a b : fl) : fl :=
  match a, b with
  | NaN, _ | _, NaN => NaN
  | Num x, Num y => if Reqb y 0 then inf_of_sign x else Num (x / y)
  | Num _, PInf | Num _, NInf => Num 0
  | PInf, Num y => if Rltb y 0 then NInf else PInf
  | NInf, Num y => if Rltb y 0 then PInf else NInf
  | _, _ => NaN
  end.

Definition flt (a b : fl) : bool :=
  match a, b with
  | NaN, _ | _, NaN => false
  | Num x, Num y => Rltb x y
  | NInf, NInf => false
  | NInf, _ => true
  | _, NInf => false
  | PInf, _ => false
  | _, PInf => true
  end.

Definition fle (a b : fl) : bool :=
  match a, b with
  | NaN, _ | _, NaN => false
  | Num x, Num y => Rleb x y
  | NInf, _ => true
  | _, NInf => false
  | _, PInf => true
  | PInf, _ => false
  end.

Definition fgt (a b : fl) : bool := flt b a.

(** [np.sqrt]: NaN on negative arguments. *)
Definition fsqrt (a : fl) : fl :=
  match a with
  | Num x => if Rltb x 0 then NaN else Num (sqrt x)
  | PInf => PInf
  | NInf | NaN => NaN
  end.

(** [np.log]: [-inf] at zero, NaN on negative arguments. *)
Definition flog (a : fl) : fl :=
  match a with
  | Num x => if Rltb 0 x then Num (ln x) else if Rltb x 0 then NaN else NInf
  | PInf => PInf
  | NInf | NaN => NaN
  end.

(** Python's built-in [max(a, b)] and [min(a, b)] on two arguments: the first
    argument is kept unless the second compares strictly beyond it. *)
Definition pymax (a b : fl) : fl := if fgt b a then b else a.
Definition pymin (a b : fl) : fl := if flt b a then b else a.


Definition fabs (a : fl) : fl :=
  match a with
  | Num x => Num (Rabs x)
  | PInf | NInf => PInf
  | NaN => NaN
  end.

(** Truth value of a double, as [np.where] / [np.nonzero] take it: everything
    but zero is true, NaN included. *)
Definition truthy (a : fl) : bool :=
  match a with
  | Num x => negb (Reqb x 0)
  | _ => true
  end.

(** ** Exceptions *)

Inductive exc (A : Type) : Type :=
| Ok (a : A)
| Raise.
Arguments Ok {A} a.
Arguments Raise {A}.

Definition bind {A B : Type} (m : exc A) (k : A -> exc B) : exc B :=
  match m with
  | Ok a => k a
  | Raise => Raise
  end.

Notation "x <- m ;; k" := (bind m (fun x => k))
  (at level 61, m at next level, right associativity).

(** A scalar carries its dynamic type: a built-in Python [float] or a
    [numpy.float64].  The two differ on a zero divisor: Python raises
    [ZeroDivisionError], NumPy returns an infinity or NaN. *)
Inductive scalar : Type :=
| PyF (v : fl)
| NpF (v : fl).

Definition val (s : scalar) : fl :=
  match s with PyF v | NpF v => v end.

(** [r + c] with [r] a Python float: the result has the type of [c]. *)
Definition py_radd (r : fl) (c : scalar) : scalar :=
  match c with
  | PyF v => PyF (fadd r v)
  | NpF v => NpF (fadd r v)
  end.

(** [1.0 / k]. *)
Definition py_inv (k : scalar) : exc fl :=
  match k with
  | PyF (Num y) => if Reqb y 0 then Raise else Ok (Num (1 / y))
  | PyF v => Ok (fdiv (Num 1) v)
  | NpF v => Ok (fdiv (Num 1) v)
  end.

(** ** NumPy arrays (one-dimensional) *)

Section Arrays.
Context {A : Type}.

(** Boolean-mask indexing [a[mask]]. *)
Fixpoint select (mask : list bool) (a : list A) : list A :=
  match mask, a with
  | m :: mask', v :: a' =>
      if m then v :: select mask' a' else select mask' a'
  | _, _ => []
  end.

(** Masked assignment [a[mask] = vals], [vals] holding one value per true
    entry of the mask. *)
Fixpoint assign (a : list A) (mask : list bool) (vals : list A) : list A :=
  match a, mask with
  | v :: a', true :: mask' =>
      match vals with
      | w :: vals' => w :: assign a' mask' vals'
      | [] => v :: assign a' mask' []
      end
  | v :: a', false :: mask' => v :: assign a' mask' vals
  | _, _ => a
  end.
End Arrays.

(** [np.full_like(a, v)]. *)
Definition full_like {A : Type} (a : list A) (v : fl) : list fl :=
  map (fun _ => v) a.

(** [a - b] for two arrays, with NumPy's broadcasting of a length-one operand;
    other shape mismatches raise. *)
Definition np_sub (a b : list fl) : exc (list fl) :=
  if Nat.eqb (length a) (length b) then Ok (map (fun p => fsub (fst p) (snd p)) (combine a b))
  else match a, b with
       | [x], _ => Ok (map (fun v => fsub x v) b)
       | _, [y] => Ok (map (fun v => fsub v y) a)
       | _, _ => Raise
       end.

Definition Rsign (x : R) : R :=
  if Rltb 0 x then 1 else if Rltb x 0 then -1 else 0.

(** [np.sign]. *)
Definition np_sign (a : fl) : fl :=
  match a with
  | Num x => Num (Rsign x)
  | PInf => Num 1
  | NInf => Num (-1)
  | NaN => NaN
  end.

(** [np.diff]: successive differences [a[i+1] - a[i]]. *)
Fixpoint np_diff (a : list fl) : list fl :=
  match a with
  | x :: (y :: _) as t => fsub y x :: np_diff t
  | _ => []
  end.

(** [np.where(a)[0]]: the indices of the true entries, in increasing order. *)
Fixpoint np_where_from (i : nat) (a : list fl) : list nat :=
  match a with
  | [] => []
  | v :: t => if truthy v then i :: np_where_from (S i) t
              else np_where_from (S i) t
  end.

Definition np_where (a : list fl) : list nat := np_where_from 0 a.

(** [a[i]] for a non-negative index; [IndexError] out of range. *)
Definition getitem {A : Type} (a : list A) (i : nat) : exc A :=
  match nth_error a i with
  | Some v => Ok v
  | None => Raise
  end.

(** [np.linspace(start, stop, num)]. *)
Definition linspace (start stop : R) (num : nat) : list fl :=
  let step := (stop - start) / INR (num - 1) in
  map (fun i => Num (start + INR i * step)) (seq 0 num).

(** ** 1. Fixed parameters *)

(** [R] in the source; the name is taken by the type of real numbers. *)
Definition R_ : R := 0.018.
Definition G : R := 0.20.
Definition M : R := 2.0.
Definition SIGMA_MIN : R := 0.10.
Definition SIGMA_MAX : R := 0.65.
Definition N_POINTS : nat := 300.
Definition LAMBDA_LIST : list R := [0.20; 0.25; 0.30].

(** ** 2. Core model functions *)

(** [physical_anchor(sigma, g, M)], [sigma] an array. *)
Definition physical_anchor (sigma : list fl) (g M : fl) : list fl :=
  let mu_geo := map (fun s => fsub g (fmul (Num 0.5) (fmul s s))) sigma in
  let et := full_like sigma NaN in
  let mask := map (fun mu => fgt mu (Num 0)) mu_geo in
  assign et mask (map (fun mu => fdiv (flog M) mu) (select mask mu_geo)).

(** [psychological_anchor_linear(sigma, lam, r)], [sigma] an array. *)
Definition psychological_anchor_linear (sigma : list fl) (lam r : fl) : list fl :=
  let k := map (fun s => fadd r (fmul lam s)) sigma in
  map (fun ki => fdiv (Num 1) ki) k.

(** [rate_simulation.py]: the scalar engine. *)
Definition calc_psychological_time (r sigma risk_coeff : fl) : fl :=
  let k := fadd r (fmul risk_coeff sigma) in
  fdiv (Num 1) (fadd k (Num 1e-6)).

Definition calc_physical_time (g sigma M : fl) : fl :=
  let mu_geo := fsub g (fmul (Num 0.5) (fmul sigma sigma)) in
  if fle mu_geo (Num 0) then PInf
  else fdiv (flog M) mu_geo.

(** The result object of [scipy.optimize.root_scalar]. *)
Record RootResults : Type := mkRootResults {
  root : fl;
  converged : bool
}.

Inductive method : Type :=
| Bisect.

(** The type of [root_scalar(f, bracket=[a, b], method=..., xtol=...)]: the
    callable may raise, and so may the solver. *)
Definition root_finder : Type :=
  (fl -> exc fl) -> fl -> fl -> method -> R -> exc RootResults.

Section Solver.

(** The standard normal cumulative distribution [scipy.stats.norm.cdf], on
    real arguments. *)
Variable Phi : R -> R.

Variable root_scalar : root_finder.

Definition norm_cdf (a : fl) : fl :=
  match a with
  | Num x => Num (Phi x)
  | PInf => Num 1
  | NInf => Num 0
  | NaN => NaN
  end.

(** [zz_risk_premium(sigma, n)].  The two early exits return Python float
    literals, the last line a NumPy scalar. *)
Definition zz_risk_premium (sigma n : fl) : scalar :=
  if fle n (Num 0) then PyF PInf
  else
    let x := fdiv (fmul sigma (fsqrt n)) (Num 4) in
    let cdf_val := norm_cdf x in
    let arg := fmul (Num 2) (fsub (Num 1) cdf_val) in
    if flt arg (Num 1e-12) then PyF (Num 1e12)
    else NpF (fdiv (fneg (flog arg)) n).

(** The residual [equation(n)] nested in [psychological_anchor_nonlinear]. *)
Definition equation (sigma r : fl) (n : fl) : exc fl :=
  if fle n (Num 0) then Ok (Num 1e6)
  else
    let c := zz_risk_premium sigma n in
    q <- py_inv (py_radd r c) ;;
    Ok (fsub n q).

(** [psychological_anchor_nonlinear(sigma, r, guess_lam)], [sigma] a NumPy
    scalar as the sweep passes it. *)
Definition psychological_anchor_nonlinear (sigma r guess_lam : fl) : fl :=
  let n_guess := fdiv (Num 1) (fadd r (fmul guess_lam sigma)) in
  let bracket_low := pymax (fmul (Num 0.1) n_guess) (Num 0.5) in
  let bracket_high := pymin (fmul (Num 10) n_guess) (Num 50) in
  match root_scalar (equation sigma r) bracket_low bracket_high Bisect 1e-6 with
  | Ok sol => if converged sol then root sol else NaN
  | Raise => NaN
  end.

(** ** 3. The sweep over the volatility grid *)

Definition sigma_grid : list fl := linspace SIGMA_MIN SIGMA_MAX N_POINTS.

Definition n_nonlin_of (grid : list fl) : list fl :=
  map (fun s => psychological_anchor_nonlinear s (Num R_) (Num 0.4)) grid.

Definition valid_mask_of (n_nonlin : list fl) : list bool :=
  map (fun v => negb (isnan v)) n_nonlin.

Definition n_nonlin : list fl := n_nonlin_of sigma_grid.
Definition valid_mask : list bool := valid_mask_of n_nonlin.
Definition sigma_valid : list fl := select valid_mask sigma_grid.
Definition n_nonlin_valid : list fl := select valid_mask n_nonlin.

End Solver.

Definition E_T : list fl := physical_anchor sigma_grid (Num G) (Num M).

Definition n_lin_dict : list (R * list fl) :=
  map (fun lam => (lam, psychological_anchor_linear sigma_grid (Num lam) (Num R_)))
      LAMBDA_LIST.

(** ** 4. Equilibrium volatility: first crossing of two curves *)

(** [np.where(np.diff(np.sign(diff)))[0]]. *)
Definition sign_change (diff : list fl) : list nat :=
  np_where (np_diff (map np_sign diff)).

(** [find_intersection(x, y1, y2)]: [Ok None] is Python's [None]. *)
Definition find_intersection (x y1 y2 : list fl) : exc (option fl) :=
  diff <- np_sub y1 y2 ;;
  match sign_change diff with
  | [] => Ok None
  | idx :: _ =>
      x1 <- getitem x idx ;;
      x2 <- getitem x (idx + 1) ;;
      y1_1 <- getitem diff idx ;;
      y1_2 <- getitem diff (idx + 1) ;;
      Ok (Some (fsub x1 (fdiv (fmul y1_1 (fsub x2 x1)) (fsub y1_2 y1_1))))
  end.

(** ** 5. Table B-1 *)

Record row : Type := mkRow {
  row_lam : R;
  row_lin : fl;
  row_nonlin : fl;
  row_diff : fl
}.

(** Dictionary lookup [d[lam]]; [KeyError] when the key is absent. *)
Fixpoint dict_get {V : Type} (d : list (R * V)) (lam : R) : exc V :=
  match d with
  | [] => Raise
  | (k, v) :: d' => if Reqb k lam then Ok v else dict_get d' lam
  end.

(** The loop printing Table B-1: one row per coefficient whose linear
    equilibrium and the non-linear equilibrium are both not [None]. *)
Fixpoint table_B1 (lams : list R) (sigma_star_lin_dict : list (R * option fl))
    (sigma_star_nonlin : option fl) : exc (list row) :=
  match lams with
  | [] => Ok []
  | lam :: lams' =>
      lin_star <- dict_get sigma_star_lin_dict lam ;;
      rest <- table_B1 lams' sigma_star_lin_dict sigma_star_nonlin ;;
      match lin_star, sigma_star_nonlin with
      | Some l, Some nl => Ok (mkRow lam l nl (fsub l nl) :: rest)
      | _, _ => Ok rest
      end
  end.

Section Equilibria.
Variable Phi : R -> R.
Variable root_scalar : root_finder.

(** The non-linear equilibrium, on the valid sub-grid. *)
Definition sigma_star_nonlin : exc (option fl) :=
  find_intersection (sigma_valid Phi root_scalar)
                    (n_nonlin_valid Phi root_scalar)
                    (select (valid_mask Phi root_scalar) E_T).
End Equilibria.

(** The linear equilibria, one per coefficient, on the full grid. *)
Fixpoint sigma_star_lin_dict_of (lams : list R) : exc (list (R * option fl)) :=
  match lams with
  | [] => Ok []
  | lam :: lams' =>
      n_lin <- dict_get n_lin_dict lam ;;
      s <- find_intersection sigma_grid n_lin E_T ;;
      rest <- sigma_star_lin_dict_of lams' ;;
      Ok ((lam, s) :: rest)
  end.

(** ** A bisection root finder

    Modelled from the spec: [scipy.optimize.root_scalar] is library code, not
    part of the repository.  The finder below follows the specification's
    words (function-sign bracketing, an absolute tolerance on the abscissa, a
    fixed iteration budget, failure when an evaluation raises or returns NaN)
    and serves as an instance of the parameter [root_scalar]. *)

Definition call (f : fl -> exc fl) (x : fl) : exc fl :=
  v <- f x ;;
  if isnan v then Raise else Ok v.

Definition is_zero (a : fl) : bool :=
  match a with
  | Num x => Reqb x 0
  | _ => false
  end.

Fixpoint bisect_loop (f : fl -> exc fl) (fa : fl) (xtol rtol : R)
    (iter : nat) (xa dm : fl) : exc RootResults :=
  match iter with
  | O => Ok (mkRootResults xa false)
  | S iter' =>
      let dm := fmul dm (Num 0.5) in
      let xm := fadd xa dm in
      fm <- call f xm ;;
      let xa := if fle (Num 0) (fmul fm fa) then xm else xa in
      if is_zero fm || flt (fabs dm) (fadd (Num xtol) (fmul (Num rtol) (fabs xm)))
      then Ok (mkRootResults xm true)
      else bisect_loop f fa xtol rtol iter' xa dm
  end.

Definition bisect : root_finder := fun f a b _ xtol =>
  fa <- call f a ;;
  fb <- call f b ;;
  if is_zero fa then Ok (mkRootResults a true)
  else if is_zero fb then Ok (mkRootResults b true)
  else if flt (Num 0) (fmul fa fb) then Raise
  else bisect_loop f fa xtol 0 100 a (fsub b a).

(** The logistic approximation of the normal distribution function, an
    instance of the parameter [Phi]. *)
Definition Phi_logistic (x : R) : R := 1 / (1 + exp (- (1.702 * x))).

(** ** Pointwise readings used in the statements *)

(** The value of the physical anchor at one grid point. *)
Definition physical_anchor_at (g M s : fl) : fl :=
  let mu := fsub g (fmul (Num 0.5) (fmul s s)) in
  if fgt mu (Num 0) then fdiv (flog M) mu else NaN.

(** Whether [np.diff(np.sign(.))] is true between two neighbouring values. *)
Definition changes (a b : fl) : bool :=
  truthy (fsub (np_sign b) (np_sign a)).

(** The pointwise difference of two real curves. *)
Definition Rdiff (y1 y2 : list R) : list R :=
  map (fun p => fst p - snd p) (combine y1 y2).

(** The zero of the chord through [(x1, d1)] and [(x2, d2)]. *)
Definition crossing (x1 x2 d1 d2 : R) : R :=
  x1 - d1 * (x2 - x1) / (d2 - d1).

(** What the development assumes of [root_scalar] with [method='bisect']:
    a converged root lies between the two bracket ends; residuals of the same
    strict sign at both ends raise [ValueError]; an exception of the callable
    at a bracket end propagates. *)
Record bisection_contract (rs : root_finder) : Prop := {
  contract_bracket :
    forall f a b xtol sol,
      rs f (Num a) (Num b) Bisect xtol = Ok sol -> converged sol = true ->
      exists x, root sol = Num x /\ Rmin a b <= x <= Rmax a b;
  contract_sign :
    forall f a b xtol va vb,
      f a = Ok (Num va) -> f b = Ok (Num vb) -> 0 < va * vb ->
      rs f a b Bisect xtol = Raise;
  contract_raise :
    forall f a b xtol,
      f a = Raise \/ f b = Raise -> rs f a b Bisect xtol = Raise
}.

(** The search bracket on real arguments. *)
Definition n_guess_of (sigma r : R) : R := 1 / (r + 0.4 * sigma).
Definition bracket_low_of (sigma r : R) : R := Rmax (0.1 * n_guess_of sigma r) 0.5.
Definition bracket_high_of (sigma r : R) : R := Rmin (10 * n_guess_of sigma r) 50.

(** What the solver makes of the outcome of [root_scalar]. *)
Definition solver_outcome (res : exc RootResults) : fl :=
  match res with
  | Ok sol => if converged sol then root sol else NaN
  | Raise => NaN
  end.

(** The real samples of [np.linspace(start, stop, num)]. *)
Definition linspace_reals (start stop : R) (num : nat) : list R :=
  map (fun i => start + INR i * ((stop - start) / INR (num - 1))) (seq 0 num).

(** ** Further code of [RATE_ZZ_robustness.py] *)

(** [sigma_meltdown = np.sqrt(2 * G)]. *)
Definition sigma_meltdown : fl := fsqrt (fmul (Num 2) (Num G)).

Section Script.
Variable Phi : R -> R.
Variable root_scalar : root_finder.

(** Sections 4 and 5 of the script in sequence: the non-linear equilibrium,
    the linear equilibria, then the rows of Table B-1. *)
Definition table_B1_run : exc (list row) :=
  nl <- sigma_star_nonlin Phi root_scalar ;;
  d <- sigma_star_lin_dict_of LAMBDA_LIST ;;
  table_B1 LAMBDA_LIST d nl.
End Script.

(** ** Further code of [rate_simulation.py] *)

Definition g_nominal : R := 0.20.
Definition target_multiple : R := 2.0.
Definition r_low : R := 0.018.
Definition r_high : R := 0.040.

Definition sigma_range : list fl := linspace 0.01 0.70 100.

Definition n_low : list fl :=
  map (fun s => calc_psychological_time (Num r_low) s (Num 0.2)) sigma_range.

Definition n_high : list fl :=
  map (fun s => calc_psychological_time (Num r_high) s (Num 0.2)) sigma_range.

Definition et_curve : list fl :=
  map (fun s => calc_physical_time (Num g_nominal) s (Num target_multiple))
      sigma_range.

Definition sigma_max : fl := fsqrt (fmul (Num 2) (Num g_nominal)).

(** [np.argwhere(np.diff(np.sign(a - b))).flatten()]. *)
Definition crossing_indices (a b : list fl) : exc (list nat) :=
  diff <- np_sub a b ;;
  Ok (np_where (np_diff (map np_sign diff))).

Definition idx_cross : exc (list nat) := crossing_indices n_low et_curve.

(** A double that is a real number or NaN, never an infinity. *)
Definition num_or_nan (a : fl) : Prop :=
  a = NaN \/ exists r, a = Num r.

(** The difference [y1 - y2] at index [j] (NaN beyond the end). *)
Definition diff_at (y1 y2 : list fl) (j : nat) : fl :=
  fsub (nth j y1 NaN) (nth j y2 NaN).

(** Two neighbouring differences that are real numbers of the same sign. *)
Definition same_sign_pair (a b : fl) : Prop :=
  exists ra rb, a = Num ra /\ b = Num rb /\ Rsign ra = Rsign rb.

(** The bracket that [psychological_anchor_nonlinear] passes to the root
    finder, as the code computes it. *)
Definition bracket_of (sigma r guess_lam : fl) : fl * fl :=
  let n_guess := fdiv (Num 1) (fadd r (fmul guess_lam sigma)) in
  (pymax (fmul (Num 0.1) n_guess) (Num 0.5),
   pymin (fmul (Num 10) n_guess) (Num 50)).

(** * Properties *)

(** ** Comparisons on reals *)

Lemma Rltb_true x y : Rltb x y = true <-> x < y.
Proof. unfold Rltb; destruct (Rlt_dec x y); split; intros; try easy. Qed.

Lemma Rltb_false x y : Rltb x y = false <-> y <= x.
Proof. unfold Rltb; destruct (Rlt_dec x y); split; intros; try easy; lra. Qed.

Lemma Rleb_true x y : Rleb x y = true <-> x <= y.
Proof. unfold Rleb; destruct (Rle_dec x y); split; intros; try easy. Qed.

Lemma Rleb_false x y : Rleb x y = false <-> y < x.
Proof. unfold Rleb; destruct (Rle_dec x y); split; intros; try easy; lra. Qed.

Lemma Reqb_true x y : Reqb x y = true <-> x = y.
Proof. unfold Reqb; destruct (Req_dec_T x y); split; intros; try easy. Qed.

Lemma Reqb_false x y : Reqb x y = false <-> x <> y.
Proof. unfold Reqb; destruct (Req_dec_T x y); split; intros; try easy. Qed.


(** ** Arrays *)

Lemma nth_error_map_Some {A B : Type} (f : A -> B) (l : list A) i a :
  nth_error l i = Some a -> nth_error (map f l) i = Some (f a).
Proof. intros H. rewrite nth_error_map, H. reflexivity. Qed.

Lemma assign_select_map (p : fl -> bool) (f : fl -> fl) (v : fl) (l : list fl) :
  assign (full_like l v) (map p l) (map f (select (map p l) l))
  = map (fun mu => if p mu then f mu else v) l.
Proof.
  unfold full_like.
  induction l as [|a l IH]; simpl; [reflexivity|].
  destruct (p a); simpl; rewrite IH; reflexivity.
Qed.

Lemma full_like_map {A B : Type} (h : A -> B) (l : list A) (v : fl) :
  full_like (map h l) v = full_like l v.
Proof. unfold full_like. rewrite map_map. reflexivity. Qed.

(** ** Arithmetic on finite operands *)

Lemma fdiv_Num (x y : R) : y <> 0 -> fdiv (Num x) (Num y) = Num (x / y).
Proof. intros H. simpl. apply Reqb_false in H. now rewrite H. Qed.

Lemma flog_Num (x : R) : 0 < x -> flog (Num x) = Num (ln x).
Proof. intros H. simpl. apply Rltb_true in H. now rewrite H. Qed.

Lemma fsqrt_Num (x : R) : 0 <= x -> fsqrt (Num x) = Num (sqrt x).
Proof.
  intros H. simpl. destruct (Rltb x 0) eqn:E; [|reflexivity].
  apply Rltb_true in E. lra.
Qed.

Lemma fsub_Num (x y : R) : fsub (Num x) (Num y) = Num (x - y).
Proof. reflexivity. Qed.

Lemma fadd_Num (x y : R) : fadd (Num x) (Num y) = Num (x + y).
Proof. reflexivity. Qed.

Lemma fmul_Num (x y : R) : fmul (Num x) (Num y) = Num (x * y).
Proof. reflexivity. Qed.

Lemma flt_Num (x y : R) : flt (Num x) (Num y) = Rltb x y.
Proof. reflexivity. Qed.

Lemma fle_Num (x y : R) : fle (Num x) (Num y) = Rleb x y.
Proof. reflexivity. Qed.

Lemma fgt_Num (x y : R) : fgt (Num x) (Num y) = Rltb y x.
Proof. reflexivity. Qed.

Lemma Rltb_lt x y : x < y -> Rltb x y = true.
Proof. apply Rltb_true. Qed.

Lemma Rltb_ge x y : y <= x -> Rltb x y = false.
Proof. apply Rltb_false. Qed.

Lemma Rleb_le x y : x <= y -> Rleb x y = true.
Proof. apply Rleb_true. Qed.

Lemma Rleb_gt x y : y < x -> Rleb x y = false.
Proof. apply Rleb_false. Qed.

(** ** AnchorModels *)

Lemma physical_anchor_map (sigma : list fl) (g M : fl) :
  physical_anchor sigma g M = map (physical_anchor_at g M) sigma.
Proof.
  unfold physical_anchor.
  rewrite <- (full_like_map (fun s => fsub g (fmul (Num 0.5) (fmul s s))) sigma NaN).
  rewrite assign_select_map, map_map. reflexivity.
Qed.

Lemma physical_anchor_at_nonpos (g M s : R) :
  g - 0.5 * (s * s) <= 0 -> physical_anchor_at (Num g) (Num M) (Num s) = NaN.
Proof.
  intros H. unfold physical_anchor_at.
  rewrite !fmul_Num, fsub_Num, fgt_Num, Rltb_ge by lra. reflexivity.
Qed.

Lemma physical_anchor_at_pos (g M s : R) :
  0 < M -> 0 < g - 0.5 * (s * s) ->
  physical_anchor_at (Num g) (Num M) (Num s) = Num (ln M / (g - 0.5 * (s * s))).
Proof.
  intros HM H. unfold physical_anchor_at.
  rewrite !fmul_Num, fsub_Num, fgt_Num, Rltb_lt by lra.
  rewrite flog_Num by lra. apply fdiv_Num. lra.
Qed.

(** C6: on a grid of real volatilities, [physical_anchor] is NaN at every point
    with [g - 0.5 sigma^2 <= 0] and [ln M / (g - 0.5 sigma^2)] at every point
    with [g - 0.5 sigma^2 > 0]; the result has one entry per grid point, so an
    undefined point does not stop the evaluation of the others. *)
Theorem physical_anchor_spec (sigma : list R) (g M : R) (HM : 0 < M) :
  length (physical_anchor (map Num sigma) (Num g) (Num M)) = length sigma /\
  forall i s, nth_error sigma i = Some s ->
    (g - 0.5 * s ^ 2 <= 0 ->
       nth_error (physical_anchor (map Num sigma) (Num g) (Num M)) i = Some NaN) /\
    (0 < g - 0.5 * s ^ 2 ->
       nth_error (physical_anchor (map Num sigma) (Num g) (Num M)) i
       = Some (Num (ln M / (g - 0.5 * s ^ 2)))).
Proof.
  rewrite physical_anchor_map. split.
  - now rewrite !length_map.
  - intros i s Hi.
    apply (nth_error_map_Some Num) in Hi.
    apply (nth_error_map_Some (physical_anchor_at (Num g) (Num M))) in Hi.
    rewrite Hi. replace (s ^ 2) with (s * s) by ring.
    split; intros H.
    + now rewrite physical_anchor_at_nonpos.
    + now rewrite physical_anchor_at_pos.
Qed.

Lemma physical_anchor_spec_witness :
  nth_error (physical_anchor (map Num [0.1; 1]) (Num 0.2) (Num 2)) 0
    = Some (Num (ln 2 / (0.2 - 0.5 * 0.1 ^ 2))) /\
  nth_error (physical_anchor (map Num [0.1; 1]) (Num 0.2) (Num 2)) 1 = Some NaN.
Proof.
  destruct (physical_anchor_spec [0.1; 1] 0.2 2 ltac:(lra)) as [_ H].
  split.
  - apply (H 0%nat 0.1 eq_refl). lra.
  - apply (H 1%nat 1 eq_refl). lra.
Defined.

(** The scalar engine of [rate_simulation.py] agrees with [physical_anchor]
    where the drift is positive, and returns [+inf], not NaN, elsewhere. *)
Lemma calc_physical_time_pos (g M s : R) :
  0 < M -> 0 < g - 0.5 * s ^ 2 ->
  calc_physical_time (Num g) (Num s) (Num M) = Num (ln M / (g - 0.5 * s ^ 2)).
Proof.
  intros HM H. replace (s ^ 2) with (s * s) in * by ring.
  unfold calc_physical_time.
  rewrite !fmul_Num, fsub_Num, fle_Num, Rleb_gt by lra.
  rewrite flog_Num by lra. apply fdiv_Num. lra.
Qed.

Lemma calc_physical_time_nonpos (g M s : R) :
  g - 0.5 * s ^ 2 <= 0 ->
  calc_physical_time (Num g) (Num s) (Num M) = PInf.
Proof.
  intros H. replace (s ^ 2) with (s * s) in * by ring.
  unfold calc_physical_time.
  rewrite !fmul_Num, fsub_Num, fle_Num, Rleb_le by lra. reflexivity.
Qed.

(** C7: for [sigma >= 0], [lam >= 0] and [r > 0], every entry of
    [psychological_anchor_linear] is the finite number [1 / (r + lam * sigma)],
    which is strictly positive; the denominator is strictly positive. *)
Theorem psychological_anchor_linear_spec (sigma : list R) (lam r : R)
    (Hlam : 0 <= lam) (Hr : 0 < r) :
  forall i s, nth_error sigma i = Some s -> 0 <= s ->
    nth_error (psychological_anchor_linear (map Num sigma) (Num lam) (Num r)) i
      = Some (Num (1 / (r + lam * s))) /\
    0 < r + lam * s /\
    0 < 1 / (r + lam * s).
Proof.
  intros i s Hi Hs.
  assert (Hk : 0 < r + lam * s) by nra.
  repeat split; trivial.
  - unfold psychological_anchor_linear. rewrite !map_map.
    rewrite (nth_error_map_Some _ _ _ _ Hi).
    rewrite fmul_Num, fadd_Num, fdiv_Num by lra. reflexivity.
  - apply Rdiv_lt_0_compat; lra.
Qed.

Lemma psychological_anchor_linear_spec_witness :
  nth_error (psychological_anchor_linear (map Num [0.1; 0.5]) (Num 0.2) (Num 0.018)) 1
    = Some (Num (1 / (0.018 + 0.2 * 0.5))) /\
  0 < 0.018 + 0.2 * 0.5 /\
  0 < 1 / (0.018 + 0.2 * 0.5).
Proof.
  apply (psychological_anchor_linear_spec [0.1; 0.5] 0.2 0.018); try lra.
  reflexivity.
Defined.

(** The scalar engine of [rate_simulation.py] adds [1e-6] to the denominator. *)
Lemma calc_psychological_time_spec (r sigma risk_coeff : R) :
  0 < r -> 0 <= sigma -> 0 <= risk_coeff ->
  calc_psychological_time (Num r) (Num sigma) (Num risk_coeff)
    = Num (1 / (r + risk_coeff * sigma + 1e-6)).
Proof.
  intros Hr Hs Hc. unfold calc_psychological_time.
  rewrite fmul_Num, !fadd_Num. apply fdiv_Num. nra.
Qed.

(** ** RiskPremiumFunction *)

Section RiskPremium.
Variable Phi : R -> R.

Lemma zz_risk_premium_arg (sigma n : R) : 0 < n ->
  zz_risk_premium Phi (Num sigma) (Num n)
  = let arg := 2 * (1 - Phi (sigma * sqrt n / 4)) in
    if Rltb arg 1e-12 then PyF (Num 1e12)
    else NpF (fdiv (fneg (flog (Num arg))) (Num n)).
Proof.
  intros Hn. unfold zz_risk_premium.
  rewrite fle_Num, Rleb_gt by lra.
  rewrite fsqrt_Num by lra.
  rewrite fmul_Num, fdiv_Num by lra.
  unfold norm_cdf. rewrite fsub_Num, fmul_Num, flt_Num. reflexivity.
Qed.

Lemma zz_risk_premium_nonpos (sigma : fl) (n : R) : n <= 0 ->
  zz_risk_premium Phi sigma (Num n) = PyF PInf.
Proof.
  intros Hn. unfold zz_risk_premium. rewrite fle_Num, Rleb_le by lra.
  reflexivity.
Qed.

Lemma zz_risk_premium_sentinel (sigma n : R) :
  0 < n -> 2 * (1 - Phi (sigma * sqrt n / 4)) < 1e-12 ->
  zz_risk_premium Phi (Num sigma) (Num n) = PyF (Num 1e12).
Proof.
  intros Hn Ha. rewrite zz_risk_premium_arg by lra. cbv zeta.
  rewrite Rltb_lt by lra. reflexivity.
Qed.

Lemma zz_risk_premium_log (sigma n : R) :
  0 < n -> 1e-12 <= 2 * (1 - Phi (sigma * sqrt n / 4)) ->
  zz_risk_premium Phi (Num sigma) (Num n)
  = NpF (Num (- ln (2 * (1 - Phi (sigma * sqrt n / 4))) / n)).
Proof.
  intros Hn Ha. rewrite zz_risk_premium_arg by lra. cbv zeta.
  rewrite Rltb_ge by lra.
  rewrite flog_Num by lra. simpl fneg. rewrite fdiv_Num by lra. reflexivity.
Qed.

Hypothesis HPhi : forall x, 0 <= x -> 1 / 2 <= Phi x <= 1.

Lemma zz_risk_premium_cases (sigma n : R) :
  0 <= sigma -> 0 < n ->
  zz_risk_premium Phi (Num sigma) (Num n) = PyF (Num 1e12) \/
  exists c : R,
    0 <= c /\ c = - ln (2 * (1 - Phi (sigma * sqrt n / 4))) / n /\
    zz_risk_premium Phi (Num sigma) (Num n) = NpF (Num c).
Proof.
  intros Hs Hn.
  assert (Hx : 0 <= sigma * sqrt n / 4).
  { assert (0 <= sqrt n) by apply sqrt_pos. nra. }
  pose proof (HPhi _ Hx) as HP.
  destruct (Rlt_dec (2 * (1 - Phi (sigma * sqrt n / 4))) 1e-12) as [Ha|Ha].
  - left. apply zz_risk_premium_sentinel; lra.
  - right. exists (- ln (2 * (1 - Phi (sigma * sqrt n / 4))) / n).
    split; [|split; [reflexivity | apply zz_risk_premium_log; lra]].
    assert (Hl : ln (2 * (1 - Phi (sigma * sqrt n / 4))) <= 0).
    { rewrite <- ln_1.
      destruct (Req_dec (2 * (1 - Phi (sigma * sqrt n / 4))) 1) as [->|Hne];
        [lra|].
      left. apply ln_increasing; lra. }
    apply Rmult_le_pos; [lra|]. left. apply Rinv_0_lt_compat. lra.
Qed.

(** The residual at a positive abscissa is a real number: the denominator
    [r + c] is positive. *)
Lemma equation_pos (sigma r n : R) :
  0 <= sigma -> 0 < r -> 0 < n ->
  exists c : R,
    0 <= c /\ val (zz_risk_premium Phi (Num sigma) (Num n)) = Num c /\
    equation Phi (Num sigma) (Num r) (Num n) = Ok (Num (n - 1 / (r + c))).
Proof.
  intros Hs Hr Hn. unfold equation. rewrite fle_Num, Rleb_gt by lra.
  destruct (zz_risk_premium_cases sigma n Hs Hn) as [E|(c & Hc & _ & E)];
    rewrite E.
  - exists 1e12. split; [lra|]. split; [reflexivity|].
    cbn [py_radd py_inv fadd].
    rewrite (proj2 (Reqb_false _ _)) by lra. reflexivity.
  - exists c. split; [lra|]. split; [reflexivity|].
    cbn [py_radd py_inv]. rewrite fadd_Num, fdiv_Num by lra. reflexivity.
Qed.

End RiskPremium.

(** C2: [zz_risk_premium] is [+inf] for [n <= 0]; for [n > 0], with
    [x = sigma * sqrt n / 4] and [arg = 2 * (1 - Phi x)], it is the sentinel
    [1e12] when [arg < 1e-12] and [- ln arg / n] otherwise. *)
Theorem zz_risk_premium_spec (Phi : R -> R) (sigma n : R) :
  (n <= 0 -> val (zz_risk_premium Phi (Num sigma) (Num n)) = PInf) /\
  (0 < n ->
     let x := sigma * sqrt n / 4 in
     let arg := 2 * (1 - Phi x) in
     (arg < 1e-12 -> val (zz_risk_premium Phi (Num sigma) (Num n)) = Num 1e12) /\
     (1e-12 <= arg ->
        val (zz_risk_premium Phi (Num sigma) (Num n)) = Num (- ln arg / n))).
Proof.
  split.
  - intros Hn. now rewrite zz_risk_premium_nonpos.
  - intros Hn x arg. subst x arg. split; intros Ha.
    + now rewrite zz_risk_premium_sentinel.
    + now rewrite zz_risk_premium_log.
Qed.

(** ** The logistic instance of [Phi] *)

Lemma Phi_logistic_0 : Phi_logistic 0 = 1 / 2.
Proof.
  unfold Phi_logistic. rewrite Rmult_0_r, Ropp_0, exp_0. lra.
Qed.

Lemma Phi_logistic_upper_half (x : R) :
  0 <= x -> 1 / 2 <= Phi_logistic x <= 1.
Proof.
  intros Hx. unfold Phi_logistic.
  assert (H0 : 0 < exp (- (1.702 * x))) by apply exp_pos.
  assert (H1 : exp (- (1.702 * x)) <= 1).
  { rewrite <- exp_0. destruct (Req_dec x 0) as [->|Hne].
    - rewrite Rmult_0_r, Ropp_0. lra.
    - left. apply exp_increasing. lra. }
  split.
  - apply Rmult_le_reg_r with (1 + exp (- (1.702 * x))); [lra|].
    unfold Rdiv at 2. rewrite Rmult_assoc, Rinv_l by lra. lra.
  - apply Rmult_le_reg_r with (1 + exp (- (1.702 * x))); [lra|].
    unfold Rdiv. rewrite Rmult_assoc, Rinv_l by lra. lra.
Qed.

Lemma zz_risk_premium_spec_witness :
  val (zz_risk_premium Phi_logistic (Num 0) (Num (-1))) = PInf /\
  val (zz_risk_premium Phi_logistic (Num 0) (Num 1)) = Num (- ln (2 * (1 - Phi_logistic (0 * sqrt 1 / 4))) / 1).
Proof.
  split.
  - apply (zz_risk_premium_spec Phi_logistic 0 (-1)). lra.
  - apply (zz_risk_premium_spec Phi_logistic 0 1); [lra|].
    replace (0 * sqrt 1 / 4) with 0 by lra. rewrite Phi_logistic_0. lra.
Defined.

(** C9: when [Phi] maps the non-negative reals into [[1/2, 1]] (as the normal
    distribution function does), [zz_risk_premium] at [sigma >= 0] and [n > 0]
    is a finite, non-negative number; and, for all arguments, its value is
    [+inf] only on the early exit [n <= 0]. *)
Theorem zz_risk_premium_finite_nonneg (Phi : R -> R)
    (HPhi : forall x, 0 <= x -> 1 / 2 <= Phi x <= 1) :
  (forall sigma n : R, 0 <= sigma -> 0 < n ->
     exists c : R,
       val (zz_risk_premium Phi (Num sigma) (Num n)) = Num c /\ 0 <= c /\
       (c = 1e12 \/ c = - ln (2 * (1 - Phi (sigma * sqrt n / 4))) / n)) /\
  (forall sigma n : fl,
     val (zz_risk_premium Phi sigma n) = PInf -> fle n (Num 0) = true).
Proof.
  split.
  - intros sigma n Hs Hn.
    destruct (zz_risk_premium_cases Phi HPhi sigma n Hs Hn)
      as [E|(c & Hc & Hdef & E)]; rewrite E.
    + exists 1e12. repeat split; [lra | now left].
    + exists c. repeat split; [lra | now right].
  - intros sigma n. unfold zz_risk_premium.
    destruct (fle n (Num 0)) eqn:En; [reflexivity|].
    destruct (norm_cdf Phi (fdiv (fmul sigma (fsqrt n)) (Num 4))) as [p| | |] eqn:Ec;
      try (destruct (fdiv (fmul sigma (fsqrt n)) (Num 4)); discriminate);
      try (simpl; discriminate).
    rewrite fsub_Num, fmul_Num, flt_Num.
    destruct (Rltb (2 * (1 - p)) 1e-12) eqn:Ea; [discriminate|].
    apply Rltb_false in Ea. rewrite flog_Num by lra. simpl fneg.
    destruct n as [y| | |]; simpl in *; try discriminate.
    apply Rleb_false in En.
    destruct (Reqb y 0) eqn:Ey; [apply Reqb_true in Ey; lra | discriminate].
Qed.

Lemma zz_risk_premium_finite_nonneg_witness :
  exists c : R,
    val (zz_risk_premium Phi_logistic (Num 0.3) (Num 4)) = Num c /\ 0 <= c /\
    (c = 1e12 \/ c = - ln (2 * (1 - Phi_logistic (0.3 * sqrt 4 / 4))) / 4).
Proof.
  apply (zz_risk_premium_finite_nonneg Phi_logistic Phi_logistic_upper_half);
    lra.
Defined.

(** ** IntersectionFinder: the index scan *)

Lemma np_diff_cons2 (a b : fl) (l : list fl) :
  np_diff (a :: b :: l) = fsub b a :: np_diff (b :: l).
Proof. reflexivity. Qed.

Lemma np_where_from_first (d : list fl) : forall i k,
  (S i < length d)%nat ->
  (forall j, (j < i)%nat -> changes (nth j d NaN) (nth (S j) d NaN) = false) ->
  changes (nth i d NaN) (nth (S i) d NaN) = true ->
  exists rest,
    np_where_from k (np_diff (map np_sign d)) = (k + i)%nat :: rest.
Proof.
  induction d as [|a d IH]; intros i k Hlen Hbefore Hat; [simpl in Hlen; lia|].
  destruct d as [|b d]; [simpl in Hlen; lia|].
  change (map np_sign (a :: b :: d))
    with (np_sign a :: np_sign b :: map np_sign d).
  rewrite np_diff_cons2. cbn [np_where_from].
  destruct i as [|i].
  - cbn [nth] in Hat. unfold changes in Hat. rewrite Hat.
    rewrite Nat.add_0_r. eexists; reflexivity.
  - pose proof (Hbefore 0%nat ltac:(lia)) as H0. cbn [nth] in H0.
    unfold changes in H0. rewrite H0.
    destruct (IH i (S k)) as [rest Hrest].
    + simpl in Hlen |- *. lia.
    + intros j Hj. apply (Hbefore (S j)). lia.
    + exact Hat.
    + exists rest. change (map np_sign (b :: d))
        with (np_sign b :: map np_sign d) in Hrest.
      rewrite Hrest. f_equal. lia.
Qed.

Lemma np_where_from_none (d : list fl) : forall k,
  (forall j, (S j < length d)%nat ->
     changes (nth j d NaN) (nth (S j) d NaN) = false) ->
  np_where_from k (np_diff (map np_sign d)) = [].
Proof.
  induction d as [|a d IH]; intros k Hall; [reflexivity|].
  destruct d as [|b d]; [reflexivity|].
  change (map np_sign (a :: b :: d))
    with (np_sign a :: np_sign b :: map np_sign d).
  rewrite np_diff_cons2. cbn [np_where_from].
  pose proof (Hall 0%nat ltac:(simpl; lia)) as H0. cbn [nth] in H0.
  unfold changes in H0. rewrite H0.
  apply (IH (S k)). intros j Hj. apply (Hall (S j)). simpl in Hj |- *. lia.
Qed.

Lemma np_where_from_In (d : list fl) : forall k i,
  In i (np_where_from k (np_diff (map np_sign d))) ->
  exists j, i = (k + j)%nat /\ (S j < length d)%nat /\
            changes (nth j d NaN) (nth (S j) d NaN) = true.
Proof.
  induction d as [|a d IH]; intros k i Hin; [destruct Hin|].
  destruct d as [|b d]; [destruct Hin|].
  change (map np_sign (a :: b :: d))
    with (np_sign a :: np_sign b :: map np_sign d) in Hin.
  rewrite np_diff_cons2 in Hin. cbn [np_where_from] in Hin.
  assert (Htail : In i (np_where_from (S k) (np_diff (map np_sign (b :: d)))) ->
                  exists j, i = (k + j)%nat /\ (S j < length (a :: b :: d))%nat /\
                    changes (nth j (a :: b :: d) NaN) (nth (S j) (a :: b :: d) NaN) = true).
  { intros H. destruct (IH _ _ H) as (j & -> & Hj & Hc).
    exists (S j). repeat split; [lia | simpl in Hj |- *; lia | exact Hc]. }
  destruct (truthy (fsub (np_sign b) (np_sign a))) eqn:Et.
  - destruct Hin as [<-|Hin]; [|auto].
    exists 0%nat. repeat split; [lia | simpl; lia | exact Et].
  - auto.
Qed.

(** ** Signs of real numbers *)

Lemma Rsign_cases (x : R) :
  (0 < x /\ Rsign x = 1) \/ (x < 0 /\ Rsign x = -1) \/ (x = 0 /\ Rsign x = 0).
Proof.
  unfold Rsign.
  destruct (Rltb 0 x) eqn:E1; [apply Rltb_true in E1; auto|].
  apply Rltb_false in E1.
  destruct (Rltb x 0) eqn:E2; [apply Rltb_true in E2; auto|].
  apply Rltb_false in E2. right; right. split; lra.
Qed.

Lemma changes_Num (a b : R) :
  changes (Num a) (Num b) = negb (Reqb (Rsign a) (Rsign b)).
Proof.
  unfold changes; simpl. f_equal.
  destruct (Reqb (Rsign a) (Rsign b)) eqn:E.
  - apply Reqb_true in E. apply Reqb_true. lra.
  - apply Reqb_false in E. apply Reqb_false. lra.
Qed.

Lemma changes_Num_false (a b : R) :
  changes (Num a) (Num b) = false <-> Rsign a = Rsign b.
Proof.
  rewrite changes_Num, negb_false_iff. apply Reqb_true.
Qed.

Lemma changes_Num_true (a b : R) :
  changes (Num a) (Num b) = true <-> Rsign a <> Rsign b.
Proof.
  rewrite changes_Num, negb_true_iff. apply Reqb_false.
Qed.

Lemma changes_NaN_l (b : fl) : changes NaN b = true.
Proof. destruct b; reflexivity. Qed.

Lemma changes_NaN_r (a : fl) : changes a NaN = true.
Proof. destruct a; reflexivity. Qed.

Lemma Rsign_neq_minus (a b : R) : Rsign a <> Rsign b -> b - a <> 0.
Proof. intros H E. apply H. f_equal. lra. Qed.

(** ** Differences of real curves *)

Lemma np_sub_Num (y1 : list R) : forall y2, length y1 = length y2 ->
  np_sub (map Num y1) (map Num y2) = Ok (map Num (Rdiff y1 y2)).
Proof.
  intros y2 Hlen. unfold np_sub. rewrite !length_map, Hlen, Nat.eqb_refl.
  f_equal. unfold Rdiff. revert y2 Hlen.
  induction y1 as [|a y1 IH]; intros [|b y2] Hlen; simpl in *;
    try discriminate; [reflexivity|].
  f_equal. apply IH. lia.
Qed.

Lemma Rdiff_length (y1 y2 : list R) :
  length y1 = length y2 -> length (Rdiff y1 y2) = length y1.
Proof.
  intros H. unfold Rdiff. rewrite length_map, length_combine, H.
  apply Nat.min_id.
Qed.

Lemma Rdiff_nth (y1 : list R) : forall y2 j, length y1 = length y2 ->
  nth j (Rdiff y1 y2) 0 = nth j y1 0 - nth j y2 0.
Proof.
  unfold Rdiff.
  induction y1 as [|a y1 IH]; intros [|b y2] j Hlen; simpl in *;
    try discriminate.
  - destruct j; lra.
  - destruct j; [reflexivity|]. apply IH. lia.
Qed.

Lemma nth_map_Num (d : list R) (j : nat) :
  (j < length d)%nat -> nth j (map Num d) NaN = Num (nth j d 0).
Proof.
  intros H. rewrite (nth_indep _ NaN (Num 0)) by now rewrite length_map.
  apply map_nth.
Qed.

Lemma getitem_map_Num (d : list R) (j : nat) :
  (j < length d)%nat -> getitem (map Num d) j = Ok (Num (nth j d 0)).
Proof.
  intros H. unfold getitem.
  rewrite (nth_error_nth' (map Num d) NaN) by now rewrite length_map.
  now rewrite nth_map_Num.
Qed.

(** ** IntersectionFinder: curves of doubles *)

Lemma np_sub_same_length (y1 : list fl) : forall y2,
  length y1 = length y2 ->
  exists diff,
    np_sub y1 y2 = Ok diff /\ length diff = length y1 /\
    forall j, nth j diff NaN = fsub (nth j y1 NaN) (nth j y2 NaN).
Proof.
  intros y2 Hlen. unfold np_sub. rewrite Hlen, Nat.eqb_refl.
  eexists; split; [reflexivity|]. split.
  - rewrite length_map, length_combine, Hlen. apply Nat.min_id.
  - revert y2 Hlen.
    induction y1 as [|a y1 IH]; intros [|b y2] Hlen j; simpl in *;
      try discriminate.
    + destruct j; reflexivity.
    + destruct j; [reflexivity|]. apply IH. lia.
Qed.

Lemma getitem_nth {A : Type} (l : list A) (j : nat) (d : A) :
  (j < length l)%nat -> getitem l j = Ok (nth j l d).
Proof.
  intros H. unfold getitem. now rewrite (nth_error_nth' l d).
Qed.

Lemma find_intersection_first_fl (x y1 y2 : list fl) (i : nat) :
  length y1 = length y2 -> length x = length y1 -> (S i < length y1)%nat ->
  (forall j, (j < i)%nat ->
     changes (fsub (nth j y1 NaN) (nth j y2 NaN))
             (fsub (nth (S j) y1 NaN) (nth (S j) y2 NaN)) = false) ->
  changes (fsub (nth i y1 NaN) (nth i y2 NaN))
          (fsub (nth (S i) y1 NaN) (nth (S i) y2 NaN)) = true ->
  find_intersection x y1 y2
  = Ok (Some (fsub (nth i x NaN)
                (fdiv (fmul (fsub (nth i y1 NaN) (nth i y2 NaN))
                            (fsub (nth (S i) x NaN) (nth i x NaN)))
                      (fsub (fsub (nth (S i) y1 NaN) (nth (S i) y2 NaN))
                            (fsub (nth i y1 NaN) (nth i y2 NaN)))))).
Proof.
  intros Hy Hx Hi Hbefore Hat.
  destruct (np_sub_same_length y1 y2 Hy) as (diff & Hsub & Hlen & Hnth).
  destruct (np_where_from_first diff i 0) as [rest Hrest].
  - lia.
  - intros j Hj. rewrite !Hnth. now apply Hbefore.
  - now rewrite !Hnth.
  - unfold find_intersection. rewrite Hsub. cbn [bind].
    unfold sign_change, np_where. rewrite Hrest. cbn [Nat.add].
    rewrite Nat.add_1_r.
    rewrite (getitem_nth x i NaN), (getitem_nth x (S i) NaN) by lia.
    rewrite (getitem_nth diff i NaN), (getitem_nth diff (S i) NaN) by lia.
    cbn [bind]. now rewrite !Hnth.
Qed.

Lemma find_intersection_no_change_fl (x y1 y2 : list fl) :
  length y1 = length y2 ->
  (forall j, (S j < length y1)%nat ->
     changes (fsub (nth j y1 NaN) (nth j y2 NaN))
             (fsub (nth (S j) y1 NaN) (nth (S j) y2 NaN)) = false) ->
  find_intersection x y1 y2 = Ok None.
Proof.
  intros Hy Hall.
  destruct (np_sub_same_length y1 y2 Hy) as (diff & Hsub & Hlen & Hnth).
  unfold find_intersection. rewrite Hsub. cbn [bind].
  unfold sign_change, np_where. rewrite np_where_from_none; [reflexivity|].
  intros j Hj. rewrite !Hnth. apply Hall. lia.
Qed.

(** ** IntersectionFinder: results *)

(** On real curves, the result at a detected index. *)
Lemma find_intersection_at (x y1 y2 : list R) (idx : nat) (rest : list nat) :
  length y1 = length y2 -> length x = length y1 -> (S idx < length y1)%nat ->
  sign_change (map Num (Rdiff y1 y2)) = idx :: rest ->
  Rsign (nth idx y1 0 - nth idx y2 0)
    <> Rsign (nth (S idx) y1 0 - nth (S idx) y2 0) ->
  find_intersection (map Num x) (map Num y1) (map Num y2)
  = Ok (Some (Num (crossing (nth idx x 0) (nth (S idx) x 0)
                            (nth idx y1 0 - nth idx y2 0)
                            (nth (S idx) y1 0 - nth (S idx) y2 0)))).
Proof.
  intros Hy Hx Hi Hsc Hne.
  unfold find_intersection. rewrite np_sub_Num by assumption.
  cbn [bind]. rewrite Hsc, Nat.add_1_r.
  rewrite !getitem_map_Num by (rewrite ?Rdiff_length; lia).
  cbn [bind]. rewrite !Rdiff_nth by assumption.
  rewrite !fsub_Num, fmul_Num, fdiv_Num by now apply Rsign_neq_minus.
  reflexivity.
Qed.

Lemma find_intersection_first_real (x y1 y2 : list R) (i : nat) :
  length y1 = length y2 -> length x = length y1 -> (S i < length y1)%nat ->
  (forall j, (j < i)%nat ->
     Rsign (nth j y1 0 - nth j y2 0) = Rsign (nth (S j) y1 0 - nth (S j) y2 0)) ->
  Rsign (nth i y1 0 - nth i y2 0) <> Rsign (nth (S i) y1 0 - nth (S i) y2 0) ->
  find_intersection (map Num x) (map Num y1) (map Num y2)
  = Ok (Some (Num (nth i x 0
                   - (nth i y1 0 - nth i y2 0) * (nth (S i) x 0 - nth i x 0)
                     / ((nth (S i) y1 0 - nth (S i) y2 0)
                        - (nth i y1 0 - nth i y2 0))))).
Proof.
  intros Hy Hx Hi Hbefore Hat.
  destruct (np_where_from_first (map Num (Rdiff y1 y2)) i 0) as [rest Hrest].
  - rewrite length_map, Rdiff_length; assumption.
  - intros j Hj.
    rewrite !nth_map_Num, !Rdiff_nth by (rewrite ?Rdiff_length; lia).
    apply changes_Num_false. now apply Hbefore.
  - rewrite !nth_map_Num, !Rdiff_nth by (rewrite ?Rdiff_length; lia).
    now apply changes_Num_true.
  - now rewrite (find_intersection_at x y1 y2 i rest).
Qed.

(** C4: let [d = y1 - y2] on curves of equal length and let [i] be the lowest
    index at which the sign of [d] changes between neighbours (zero being a
    sign of its own).  On real curves [find_intersection] returns the
    interpolated crossing [x_i - d_i (x_{i+1} - x_i) / (d_{i+1} - d_i)] of that
    pair, whatever the curves do after it.  On curves of doubles, with the
    signs compared as [np.sign] and [np.diff] compare them, it returns the same
    expression evaluated in double arithmetic. *)
Theorem find_intersection_first :
  (forall (x y1 y2 : list R) (i : nat),
     length y1 = length y2 -> length x = length y1 -> (S i < length y1)%nat ->
     (forall j, (j < i)%nat ->
        Rsign (nth j y1 0 - nth j y2 0)
        = Rsign (nth (S j) y1 0 - nth (S j) y2 0)) ->
     Rsign (nth i y1 0 - nth i y2 0)
       <> Rsign (nth (S i) y1 0 - nth (S i) y2 0) ->
     find_intersection (map Num x) (map Num y1) (map Num y2)
     = Ok (Some (Num (nth i x 0
                      - (nth i y1 0 - nth i y2 0) * (nth (S i) x 0 - nth i x 0)
                        / ((nth (S i) y1 0 - nth (S i) y2 0)
                           - (nth i y1 0 - nth i y2 0)))))) /\
  (forall (x y1 y2 : list fl) (i : nat),
     length y1 = length y2 -> length x = length y1 -> (S i < length y1)%nat ->
     (forall j, (j < i)%nat ->
        changes (fsub (nth j y1 NaN) (nth j y2 NaN))
                (fsub (nth (S j) y1 NaN) (nth (S j) y2 NaN)) = false) ->
     changes (fsub (nth i y1 NaN) (nth i y2 NaN))
             (fsub (nth (S i) y1 NaN) (nth (S i) y2 NaN)) = true ->
     find_intersection x y1 y2
     = Ok (Some (fsub (nth i x NaN)
                   (fdiv (fmul (fsub (nth i y1 NaN) (nth i y2 NaN))
                               (fsub (nth (S i) x NaN) (nth i x NaN)))
                         (fsub (fsub (nth (S i) y1 NaN) (nth (S i) y2 NaN))
                               (fsub (nth i y1 NaN) (nth i y2 NaN))))))).
Proof.
  split.
  - exact find_intersection_first_real.
  - exact find_intersection_first_fl.
Qed.

Ltac Rsign_decide :=
  unfold Rsign;
  repeat match goal with
    | |- context [Rltb ?a ?b] =>
        first [rewrite (Rltb_lt a b) by lra | rewrite (Rltb_ge a b) by lra]
    end.

Lemma find_intersection_first_witness :
  find_intersection (map Num [0; 1; 2; 3]) (map Num [0; 1; 2; 3])
                    (map Num [3; 2; 1; 4])
  = Ok (Some (Num (nth 1%nat [0; 1; 2; 3] 0
                   - (nth 1%nat [0; 1; 2; 3] 0 - nth 1%nat [3; 2; 1; 4] 0)
                     * (nth 2%nat [0; 1; 2; 3] 0 - nth 1%nat [0; 1; 2; 3] 0)
                     / ((nth 2%nat [0; 1; 2; 3] 0 - nth 2%nat [3; 2; 1; 4] 0)
                        - (nth 1%nat [0; 1; 2; 3] 0 - nth 1%nat [3; 2; 1; 4] 0))))).
Proof.
  apply (proj1 find_intersection_first
           [0; 1; 2; 3] [0; 1; 2; 3] [3; 2; 1; 4] 1%nat).
  - reflexivity.
  - reflexivity.
  - simpl; lia.
  - intros j Hj. assert (j = 0%nat) as -> by lia. cbn [nth]. Rsign_decide.
    reflexivity.
  - cbn [nth]. Rsign_decide. lra.
Defined.

(** C10: on real curves of equal length, every index that [find_intersection]
    detects as a sign change has two defined neighbouring differences whose
    signs differ, and the interpolation denominator [d_{i+1} - d_i] is not
    zero. *)
Theorem sign_change_denominator_nonzero (y1 y2 : list R) (i : nat) :
  length y1 = length y2 ->
  In i (sign_change (map Num (Rdiff y1 y2))) ->
  (S i < length y1)%nat /\
  Rsign (nth i y1 0 - nth i y2 0) <> Rsign (nth (S i) y1 0 - nth (S i) y2 0) /\
  (nth (S i) y1 0 - nth (S i) y2 0) - (nth i y1 0 - nth i y2 0) <> 0 /\
  fsub (Num (nth (S i) y1 0 - nth (S i) y2 0)) (Num (nth i y1 0 - nth i y2 0))
    <> Num 0.
Proof.
  intros Hy Hin.
  destruct (np_where_from_In _ _ _ Hin) as (j & Hj & Hlen & Hc).
  simpl in Hj; subst j.
  rewrite length_map, Rdiff_length in Hlen by assumption.
  rewrite !nth_map_Num, !Rdiff_nth in Hc by (rewrite ?Rdiff_length; lia).
  apply changes_Num_true in Hc.
  pose proof (Rsign_neq_minus _ _ Hc) as Hd.
  repeat split; trivial.
  rewrite fsub_Num. intros E. injection E. exact Hd.
Qed.

Lemma sign_change_eval_0 :
  sign_change (map Num (Rdiff [1; -1] [0; 0])) = [0%nat].
Proof.
  unfold Rdiff, sign_change, np_where. cbn [combine map fst snd].
  rewrite np_diff_cons2. cbn [np_sign np_diff np_where_from fsub fadd fneg truthy].
  Rsign_decide.
  rewrite (proj2 (Reqb_false _ _)) by lra. reflexivity.
Qed.

Lemma sign_change_denominator_nonzero_witness :
  (nth 1%nat [1; -1] 0 - nth 1%nat [0; 0] 0)
    - (nth 0%nat [1; -1] 0 - nth 0%nat [0; 0] 0) <> 0.
Proof.
  refine (proj1 (proj2 (proj2
            (sign_change_denominator_nonzero [1; -1] [0; 0] 0 eq_refl _)))).
  rewrite sign_change_eval_0. now left.
Defined.

Lemma find_intersection_no_change (x y1 y2 : list R) :
  length y1 = length y2 ->
  (forall j, (S j < length y1)%nat ->
     Rsign (nth j y1 0 - nth j y2 0) = Rsign (nth (S j) y1 0 - nth (S j) y2 0)) ->
  find_intersection (map Num x) (map Num y1) (map Num y2) = Ok None.
Proof.
  intros Hy Hall. unfold find_intersection.
  rewrite np_sub_Num by assumption. cbn [bind].
  unfold sign_change, np_where. rewrite np_where_from_none; [reflexivity|].
  intros j Hj. rewrite length_map, Rdiff_length in Hj by assumption.
  rewrite !nth_map_Num, !Rdiff_nth by (rewrite ?Rdiff_length; lia).
  apply changes_Num_false. now apply Hall.
Qed.

Lemma table_B1_rows (dict : list (R * option fl)) (nl : option fl) :
  forall lams,
    (forall lam, In lam lams -> exists v, dict_get dict lam = Ok v) ->
    exists rows,
      table_B1 lams dict nl = Ok rows /\
      forall r, In r rows ->
        In (row_lam r) lams /\
        dict_get dict (row_lam r) = Ok (Some (row_lin r)) /\
        nl = Some (row_nonlin r).
Proof.
  induction lams as [|lam lams IH]; intros Hkeys.
  - exists []. split; [reflexivity | intros r []].
  - destruct (Hkeys lam (or_introl eq_refl)) as [v Hv].
    destruct IH as (rows & Hrows & Hin).
    { intros l Hl. apply Hkeys. now right. }
    cbn [table_B1]. rewrite Hv, Hrows. cbn [bind].
    destruct v as [l|]; [destruct nl as [n|]|].
    + eexists; split; [reflexivity|].
      intros r [<-|Hr]; cbn [row_lam row_lin row_nonlin].
      * repeat split; trivial. now left.
      * destruct (Hin r Hr) as (H1 & H2 & H3). repeat split; trivial. now right.
    + exists rows; split; [reflexivity|].
      intros r Hr. destruct (Hin r Hr) as (H1 & H2 & H3). discriminate.
    + exists rows; split; [reflexivity|].
      intros r Hr. destruct (Hin r Hr) as (H1 & H2 & H3).
      repeat split; trivial. now right.
Qed.

(** ** IntersectionFinder: undefined values *)

Lemma fsub_NaN_r (a : fl) : fsub a NaN = NaN.
Proof. destruct a; reflexivity. Qed.

Lemma fsub_NaN_l (a : fl) : fsub NaN a = NaN.
Proof. destruct a; reflexivity. Qed.

Lemma fdiv_NaN_r (a : fl) : fdiv a NaN = NaN.
Proof. destruct a; reflexivity. Qed.

Lemma interpolation_NaN (x1 t a b : fl) :
  isnan a || isnan b = true ->
  fsub x1 (fdiv (fmul a t) (fsub b a)) = NaN.
Proof.
  intros H. destruct a; simpl in H.
  1-3: destruct b; try discriminate;
       rewrite fsub_NaN_l, fdiv_NaN_r; apply fsub_NaN_r.
  apply fsub_NaN_r.
Qed.

Ltac fl_eval :=
  repeat first
    [ progress cbv beta iota zeta delta
        [find_intersection np_sub bind sign_change np_where np_where_from
         np_diff map np_sign combine length Nat.eqb fst snd fsub fadd fneg
         fmul fdiv truthy getitem nth_error negb Nat.add Rsign inf_of_sign]
    | match goal with
      | |- context [Rltb ?a ?b] =>
          first [rewrite (Rltb_lt a b) by lra | rewrite (Rltb_ge a b) by lra]
      | |- context [Reqb ?a ?b] =>
          first [rewrite (proj2 (Reqb_true a b)) by lra
                | rewrite (proj2 (Reqb_false a b)) by lra]
      end ].

(** C5, counterexample: the physical anchor is undefined at the last grid
    point and the curves do not cross before it; the result is NaN, neither
    [None] nor a number.  In the second call an undefined first sample hides
    the crossing between the defined samples at indices 1 and 2. *)
Lemma find_intersection_nan_counterexample :
  find_intersection [Num 1; Num 2; Num 3] [Num 1; Num 1; Num 1]
                    [Num 2; Num 3; NaN] = Ok (Some NaN) /\
  find_intersection [Num 1; Num 2; Num 3] [Num 1; Num 1; Num 1]
                    [Num 2; Num 3; NaN] <> Ok None /\
  (forall v : R,
     find_intersection [Num 1; Num 2; Num 3] [Num 1; Num 1; Num 1]
                       [Num 2; Num 3; NaN] <> Ok (Some (Num v))) /\
  find_intersection [Num 1; Num 2; Num 3; Num 4] [NaN; Num 1; Num 1; Num 3]
                    [Num 0; Num 0; Num 2; Num 2] = Ok (Some NaN).
Proof.
  assert (E : find_intersection [Num 1; Num 2; Num 3] [Num 1; Num 1; Num 1]
                [Num 2; Num 3; NaN] = Ok (Some NaN)).
  { fl_eval. reflexivity. }
  rewrite E. split; [reflexivity|]. split; [discriminate|].
  split; [intros v; discriminate|]. reflexivity.
Qed.

(** ** The bisection instance meets the contract *)

Lemma bisect_loop_bracket (f : fl -> exc fl) (fa : fl) (xtol rtol lo hi : R) :
  forall iter xa dm sol,
    lo <= xa <= hi -> lo <= xa + dm <= hi ->
    bisect_loop f fa xtol rtol iter (Num xa) (Num dm) = Ok sol ->
    converged sol = true ->
    exists x, root sol = Num x /\ lo <= x <= hi.
Proof.
  induction iter as [|iter IH]; intros xa dm sol Hxa Hxb Hrun Hconv.
  - injection Hrun as <-. discriminate.
  - cbn [bisect_loop] in Hrun. rewrite fmul_Num, fadd_Num in Hrun.
    destruct (call f (Num (xa + dm * 0.5))) as [fm|]; [|discriminate].
    cbn [bind] in Hrun.
    destruct (is_zero fm || _).
    + injection Hrun as <-. exists (xa + dm * 0.5). split; [reflexivity | lra].
    + destruct (fle (Num 0) (fmul fm fa)).
      * refine (IH _ _ _ _ _ Hrun Hconv); lra.
      * refine (IH _ _ _ _ _ Hrun Hconv); lra.
Qed.

Lemma bisect_contract : bisection_contract bisect.
Proof.
  constructor.
  - intros f a b xtol sol Hrun Hconv. unfold bisect in Hrun.
    pose proof (Rmin_l a b). pose proof (Rmin_r a b).
    pose proof (Rmax_l a b). pose proof (Rmax_r a b).
    destruct (call f (Num a)) as [fa|]; [|discriminate].
    destruct (call f (Num b)) as [fb|]; [|discriminate].
    cbn [bind] in Hrun.
    destruct (is_zero fa); [injection Hrun as <-; exists a; now split|].
    destruct (is_zero fb); [injection Hrun as <-; exists b; now split|].
    destruct (flt (Num 0) (fmul fa fb)); [discriminate|].
    rewrite fsub_Num in Hrun.
    refine (bisect_loop_bracket _ _ _ _ (Rmin a b) (Rmax a b) _ _ _ sol
              _ _ Hrun Hconv); lra.
  - intros f a b xtol va vb Ha Hb Hsign. unfold bisect, call.
    rewrite Ha, Hb. cbn [bind isnan is_zero].
    rewrite (proj2 (Reqb_false va 0)) by nra.
    rewrite (proj2 (Reqb_false vb 0)) by nra.
    rewrite fmul_Num, flt_Num, Rltb_lt by lra. reflexivity.
  - intros f a b xtol [H|H]; unfold bisect, call; rewrite H.
    + reflexivity.
    + destruct (f a) as [v|]; [|reflexivity]. cbn [bind].
      destruct (isnan v); reflexivity.
Qed.

(** ** SelfConsistentSolver *)

Lemma pymax_Num (x y : R) : pymax (Num x) (Num y) = Num (Rmax x y).
Proof.
  unfold pymax. rewrite fgt_Num. destruct (Rltb x y) eqn:E.
  - apply Rltb_true in E. now rewrite Rmax_right by lra.
  - apply Rltb_false in E. now rewrite Rmax_left by lra.
Qed.

Lemma pymin_Num (x y : R) : pymin (Num x) (Num y) = Num (Rmin x y).
Proof.
  unfold pymin. rewrite flt_Num. destruct (Rltb y x) eqn:E.
  - apply Rltb_true in E. now rewrite Rmin_right by lra.
  - apply Rltb_false in E. now rewrite Rmin_left by lra.
Qed.

Lemma n_guess_pos (sigma r : R) :
  0 <= sigma -> 0 < r -> 0 < n_guess_of sigma r.
Proof.
  intros Hs Hr. unfold n_guess_of. apply Rdiv_lt_0_compat; lra.
Qed.

Lemma bracket_pos (sigma r : R) :
  0 <= sigma -> 0 < r ->
  0.5 <= bracket_low_of sigma r /\ 0 < bracket_high_of sigma r <= 50.
Proof.
  intros Hs Hr. pose proof (n_guess_pos sigma r Hs Hr) as Hg.
  unfold bracket_low_of, bracket_high_of. split; [apply Rmax_r|].
  split; [apply Rmin_glb_lt; lra | apply Rmin_r].
Qed.

Section SolverFacts.
Variable Phi : R -> R.
Variable root_scalar : root_finder.

(** The call made by the solver, on real arguments. *)
Lemma solver_call (sigma r : R) :
  0 <= sigma -> 0 < r ->
  psychological_anchor_nonlinear Phi root_scalar (Num sigma) (Num r) (Num 0.4)
  = solver_outcome
      (root_scalar (equation Phi (Num sigma) (Num r))
         (Num (bracket_low_of sigma r)) (Num (bracket_high_of sigma r))
         Bisect 1e-6).
Proof.
  intros Hs Hr. unfold psychological_anchor_nonlinear, solver_outcome.
  rewrite fmul_Num, fadd_Num, fdiv_Num by lra.
  rewrite !fmul_Num, pymax_Num, pymin_Num. reflexivity.
Qed.

Hypothesis Hrs : bisection_contract root_scalar.

Lemma solver_result (sigma r : R) :
  0 <= sigma -> 0 < r ->
  psychological_anchor_nonlinear Phi root_scalar (Num sigma) (Num r) (Num 0.4)
    = NaN \/
  exists n,
    psychological_anchor_nonlinear Phi root_scalar (Num sigma) (Num r) (Num 0.4)
      = Num n /\
    Rmin (bracket_low_of sigma r) (bracket_high_of sigma r) <= n
      <= Rmax (bracket_low_of sigma r) (bracket_high_of sigma r) /\
    0 < n.
Proof.
  intros Hs Hr. rewrite solver_call by assumption.
  destruct (root_scalar _ _ _ _ _) as [sol|] eqn:Hrun; [|now left].
  cbn [solver_outcome]. destruct (converged sol) eqn:Hconv; [|now left].
  right. destruct (contract_bracket _ Hrs _ _ _ _ _ Hrun Hconv) as (x & Hx & Hin).
  exists x. split; [exact Hx|]. split; [exact Hin|].
  destruct (bracket_pos sigma r Hs Hr) as (Hlo & Hhi & _).
  assert (0 < Rmin (bracket_low_of sigma r) (bracket_high_of sigma r))
    by (apply Rmin_glb_lt; lra).
  lra.
Qed.

End SolverFacts.

(** ** The volatility grid *)

Lemma linspace_map_Num (start stop : R) (num : nat) :
  linspace start stop num = map Num (linspace_reals start stop num).
Proof. unfold linspace, linspace_reals. now rewrite map_map. Qed.

Lemma linspace_reals_range (start stop : R) (num : nat) (s : R) :
  start <= stop -> (2 <= num)%nat ->
  In s (linspace_reals start stop num) -> start <= s <= stop.
Proof.
  intros Hle Hnum Hin. unfold linspace_reals in Hin.
  apply in_map_iff in Hin as (i & <- & Hi). apply in_seq in Hi.
  assert (Hn : 0 < INR (num - 1)) by (apply lt_0_INR; lia).
  assert (H0 : 0 <= INR i) by apply pos_INR.
  assert (H1 : INR i <= INR (num - 1)) by (apply le_INR; lia).
  set (t := INR i / INR (num - 1)).
  assert (Ht : 0 <= t <= 1).
  { unfold t. split.
    - apply Rmult_le_pos; [lra | left; now apply Rinv_0_lt_compat].
    - apply Rmult_le_reg_r with (INR (num - 1)); [lra|].
      unfold Rdiv. rewrite Rmult_assoc, Rinv_l by lra. lra. }
  replace (INR i * ((stop - start) / INR (num - 1)))
    with (t * (stop - start)) by (unfold t; field; lra).
  nra.
Qed.

Lemma sigma_grid_reals :
  sigma_grid = map Num (linspace_reals SIGMA_MIN SIGMA_MAX N_POINTS) /\
  length (linspace_reals SIGMA_MIN SIGMA_MAX N_POINTS) = N_POINTS /\
  forall s, In s (linspace_reals SIGMA_MIN SIGMA_MAX N_POINTS) ->
            0.10 <= s <= 0.65.
Proof.
  split; [apply linspace_map_Num|]. split.
  - unfold linspace_reals. now rewrite length_map, length_seq.
  - intros s Hs.
    apply (linspace_reals_range SIGMA_MIN SIGMA_MAX N_POINTS) in Hs.
    + unfold SIGMA_MIN, SIGMA_MAX in Hs. lra.
    + unfold SIGMA_MIN, SIGMA_MAX. lra.
    + unfold N_POINTS. lia.
Qed.

(** ** SelfConsistentSolver: the claims *)

(** C3: for [sigma >= 0] and [r > 0] the solver calls the root finder on the
    residual [n - 1 / (r + zz_risk_premium sigma n)], with the bracket
    [[max(0.1 n_guess, 0.5), min(10 n_guess, 50)]] seeded by
    [n_guess = 1 / (r + 0.4 sigma)], the bisection method and [xtol = 1e-6];
    a value it returns lies between the two bracket ends, which are in order
    whenever [0.05 <= n_guess <= 500]. *)
Theorem solver_bracket (Phi : R -> R) (root_scalar : root_finder)
    (HPhi : forall x, 0 <= x -> 1 / 2 <= Phi x <= 1)
    (Hrs : bisection_contract root_scalar) (sigma r : R) :
  0 <= sigma -> 0 < r ->
  let n_guess := 1 / (r + 0.4 * sigma) in
  let lo := Rmax (0.1 * n_guess) 0.5 in
  let hi := Rmin (10 * n_guess) 50 in
  psychological_anchor_nonlinear Phi root_scalar (Num sigma) (Num r) (Num 0.4)
    = solver_outcome
        (root_scalar (equation Phi (Num sigma) (Num r)) (Num lo) (Num hi)
           Bisect 1e-6) /\
  (forall n, 0 < n ->
     exists c,
       val (zz_risk_premium Phi (Num sigma) (Num n)) = Num c /\
       equation Phi (Num sigma) (Num r) (Num n) = Ok (Num (n - 1 / (r + c)))) /\
  (forall n,
     psychological_anchor_nonlinear Phi root_scalar (Num sigma) (Num r) (Num 0.4)
       = Num n ->
     Rmin lo hi <= n <= Rmax lo hi) /\
  (0.05 <= n_guess <= 500 -> lo <= hi).
Proof.
  intros Hs Hr n_guess lo hi.
  split; [now apply solver_call|]. split; [|split].
  - intros n Hn.
    destruct (equation_pos Phi HPhi sigma r n Hs Hr Hn) as (c & _ & Hc & He).
    now exists c.
  - intros n Hn.
    destruct (solver_result Phi root_scalar Hrs sigma r Hs Hr)
      as [E|(n' & E & Hin & _)]; rewrite E in Hn; [discriminate|].
    injection Hn as <-. exact Hin.
  - intros Hg. subst lo hi. apply Rmin_glb.
    + apply Rmax_lub; lra.
    + apply Rmax_lub; lra.
Qed.

Lemma solver_bracket_witness :
  psychological_anchor_nonlinear Phi_logistic bisect (Num 0.3) (Num 0.018) (Num 0.4)
  = solver_outcome
      (bisect (equation Phi_logistic (Num 0.3) (Num 0.018))
         (Num (Rmax (0.1 * (1 / (0.018 + 0.4 * 0.3))) 0.5))
         (Num (Rmin (10 * (1 / (0.018 + 0.4 * 0.3))) 50))
         Bisect 1e-6).
Proof.
  refine (proj1 (solver_bracket Phi_logistic bisect Phi_logistic_upper_half
                   bisect_contract 0.3 0.018 _ _)); lra.
Defined.

(** * Further properties of the code *)

(** ** [find_intersection]: exceptions *)

Lemma find_intersection_ok (x y1 y2 : list fl) :
  length y1 = length y2 -> (length y1 <= length x)%nat ->
  exists res, find_intersection x y1 y2 = Ok res.
Proof.
  intros Hy Hx.
  destruct (np_sub_same_length y1 y2 Hy) as (diff & Hsub & Hlen & _).
  unfold find_intersection. rewrite Hsub. cbn [bind].
  destruct (sign_change diff) as [|idx rest] eqn:Hsc; [now eexists|].
  assert (Hin : In idx (sign_change diff)) by (rewrite Hsc; now left).
  destruct (np_where_from_In _ _ _ Hin) as (j & Hj & Hlt & _).
  simpl in Hj; subst j. rewrite Nat.add_1_r.
  rewrite (getitem_nth x idx NaN), (getitem_nth x (S idx) NaN) by lia.
  rewrite (getitem_nth diff idx NaN), (getitem_nth diff (S idx) NaN) by lia.
  cbn [bind]. now eexists.
Qed.

(** [find_intersection] raises no exception when the two curves have equal
    length and the grid is at least as long: the result is [None] or a
    double. *)
Theorem find_intersection_no_exception (x y1 y2 : list fl) :
  length y1 = length y2 -> (length y1 <= length x)%nat ->
  exists res, find_intersection x y1 y2 = Ok res.
Proof. exact (find_intersection_ok x y1 y2). Qed.

Lemma find_intersection_no_exception_witness :
  exists res,
    find_intersection [Num 0; Num 1] [Num 1; NaN] [PInf; Num 2] = Ok res.
Proof.
  apply find_intersection_no_exception; [reflexivity | simpl; lia].
Defined.

(** Curves of different lengths, neither of length one, make the subtraction
    [y1 - y2] raise: [find_intersection] raises whatever the grid. *)
Theorem find_intersection_shape_mismatch (x y1 y2 : list fl) :
  length y1 <> length y2 -> length y1 <> 1%nat -> length y2 <> 1%nat ->
  find_intersection x y1 y2 = Raise.
Proof.
  intros Hne H1 H2. unfold find_intersection, np_sub.
  apply Nat.eqb_neq in Hne. rewrite Hne.
  destruct y1 as [|a [|a' y1]]; destruct y2 as [|b [|b' y2]];
    simpl in *; try reflexivity; try congruence.
Qed.

Lemma find_intersection_shape_mismatch_witness :
  find_intersection [Num 0; Num 1; Num 2] [Num 1; Num 2; Num 3] [Num 0; Num 0]
  = Raise.
Proof.
  apply find_intersection_shape_mismatch; simpl; lia.
Defined.

(** A grid too short for the detected pair raises [IndexError]: the index
    [idx + 1] is read from the grid. *)
Theorem find_intersection_short_grid (x y1 y2 : list fl) (i : nat) :
  length y1 = length y2 -> (S i < length y1)%nat ->
  (forall j, (j < i)%nat ->
     changes (fsub (nth j y1 NaN) (nth j y2 NaN))
             (fsub (nth (S j) y1 NaN) (nth (S j) y2 NaN)) = false) ->
  changes (fsub (nth i y1 NaN) (nth i y2 NaN))
          (fsub (nth (S i) y1 NaN) (nth (S i) y2 NaN)) = true ->
  (length x <= S i)%nat ->
  find_intersection x y1 y2 = Raise.
Proof.
  intros Hy Hi Hbefore Hat Hx.
  destruct (np_sub_same_length y1 y2 Hy) as (diff & Hsub & Hlen & Hnth).
  destruct (np_where_from_first diff i 0) as [rest Hrest].
  - lia.
  - intros j Hj. rewrite !Hnth. now apply Hbefore.
  - now rewrite !Hnth.
  - unfold find_intersection. rewrite Hsub. cbn [bind].
    unfold sign_change, np_where. rewrite Hrest. cbn [Nat.add].
    rewrite Nat.add_1_r. unfold getitem at 2.
    rewrite (proj2 (nth_error_None x (S i))) by lia.
    destruct (getitem x i); reflexivity.
Qed.

Lemma find_intersection_short_grid_witness :
  find_intersection [Num 0] [NaN; Num 1] [Num 0; Num 0] = Raise.
Proof.
  apply (find_intersection_short_grid [Num 0] [NaN; Num 1] [Num 0; Num 0] 0%nat);
    try reflexivity; simpl; try lia.
Defined.

(** ** [find_intersection]: where the crossing lies *)

Lemma crossing_in_cell (x1 x2 d1 d2 : R) :
  Rsign d1 <> Rsign d2 -> x1 <= x2 ->
  x1 <= crossing x1 x2 d1 d2 <= x2.
Proof.
  intros Hs Hx. pose proof (Rsign_neq_minus _ _ Hs) as HD.
  assert (Hcases : (d1 <= 0 /\ 0 <= d2 /\ 0 < d2 - d1) \/
                   (0 <= d1 /\ d2 <= 0 /\ d2 - d1 < 0)).
  { destruct (Rsign_cases d1) as [[? E1]|[[? E1]|[? E1]]];
    destruct (Rsign_cases d2) as [[? E2]|[[? E2]|[? E2]]];
      try (exfalso; apply Hs; congruence); [right|right|left|left|left|right];
      repeat split; lra. }
  set (q := / (d2 - d1)).
  assert (Hq : q * (d2 - d1) = 1) by (unfold q; now apply Rinv_l).
  assert (Ht : 0 <= - d1 * q <= 1).
  { destruct Hcases as [(H1 & H2 & H3)|(H1 & H2 & H3)].
    - assert (0 < q) by (unfold q; now apply Rinv_0_lt_compat). nra.
    - assert (q < 0) by (unfold q; now apply Rinv_lt_0_compat). nra. }
  replace (crossing x1 x2 d1 d2) with (x1 + (- d1 * q) * (x2 - x1))
    by (unfold crossing, q; field; exact HD).
  nra.
Qed.

Lemma crossing_chord_zero (x1 x2 d1 d2 : R) :
  d2 - d1 <> 0 -> x2 - x1 <> 0 ->
  d1 + (d2 - d1) * (crossing x1 x2 d1 d2 - x1) / (x2 - x1) = 0.
Proof. intros HD Hx. unfold crossing. field. split; assumption. Qed.

Lemma nth_num_or_nan (l : list fl) (j : nat) :
  Forall num_or_nan l -> num_or_nan (nth j l NaN).
Proof.
  intros H. revert j. induction H as [|a l Ha _ IH]; intros [|j]; simpl;
    try (now left); auto.
Qed.

Lemma fsub_num_or_nan (a b : fl) :
  num_or_nan a -> num_or_nan b -> num_or_nan (fsub a b).
Proof.
  intros [->|[ra ->]] [->|[rb ->]]; try (now left).
  right. eexists. reflexivity.
Qed.

Lemma find_intersection_cell_cases (x : list R) (y1 y2 : list fl) :
  length y1 = length y2 -> length x = length y1 ->
  Forall num_or_nan y1 -> Forall num_or_nan y2 ->
  (forall j, (S j < length x)%nat -> nth j x 0 <= nth (S j) x 0) ->
  find_intersection (map Num x) y1 y2 = Ok None \/
  find_intersection (map Num x) y1 y2 = Ok (Some NaN) \/
  exists i c d1 d2,
    (S i < length x)%nat /\
    fsub (nth i y1 NaN) (nth i y2 NaN) = Num d1 /\
    fsub (nth (S i) y1 NaN) (nth (S i) y2 NaN) = Num d2 /\
    Rsign d1 <> Rsign d2 /\
    find_intersection (map Num x) y1 y2 = Ok (Some (Num c)) /\
    nth i x 0 <= c <= nth (S i) x 0 /\
    (nth (S i) x 0 - nth i x 0 <> 0 ->
     d1 + (d2 - d1) * (c - nth i x 0) / (nth (S i) x 0 - nth i x 0) = 0).
Proof.
  intros Hy Hx Hn1 Hn2 Hmono.
  destruct (np_sub_same_length y1 y2 Hy) as (diff & Hsub & Hlen & Hnth).
  unfold find_intersection. rewrite Hsub. cbn [bind].
  destruct (sign_change diff) as [|idx rest] eqn:Hsc; [now left|].
  right.
  assert (Hin : In idx (sign_change diff)) by (rewrite Hsc; now left).
  destruct (np_where_from_In _ _ _ Hin) as (j & Hj & Hlt & Hc).
  simpl in Hj; subst j. rewrite Nat.add_1_r.
  rewrite !getitem_map_Num by lia.
  rewrite (getitem_nth diff idx NaN), (getitem_nth diff (S idx) NaN) by lia.
  cbn [bind]. rewrite !Hnth in Hc |- *.
  pose proof (fsub_num_or_nan _ _ (nth_num_or_nan y1 idx Hn1)
                (nth_num_or_nan y2 idx Hn2)) as [E1|[d1 E1]];
  pose proof (fsub_num_or_nan _ _ (nth_num_or_nan y1 (S idx) Hn1)
                (nth_num_or_nan y2 (S idx) Hn2)) as [E2|[d2 E2]];
    rewrite E1, E2 in *.
  1-3: left; now rewrite interpolation_NaN.
  right. apply changes_Num_true in Hc.
  pose proof (Rsign_neq_minus _ _ Hc) as HD.
  exists idx, (crossing (nth idx x 0) (nth (S idx) x 0) d1 d2), d1, d2.
  split; [lia|]. split; [exact E1|]. split; [exact E2|].
  split; [exact Hc|]. split.
  - rewrite !fsub_Num, fmul_Num, fdiv_Num by exact HD. reflexivity.
  - split.
    + apply crossing_in_cell; [exact Hc | apply Hmono; lia].
    + intros Hx0. now apply crossing_chord_zero.
Qed.

(** On a non-decreasing real grid and two curves of equal length whose values
    are real numbers or NaN, [find_intersection] has three outcomes: [None],
    NaN, or a number that lies in the grid cell [[x_i, x_{i+1}]] of a
    neighbouring pair with defined differences of different sign, where it
    is the zero of the chord through the two differences. *)
Theorem find_intersection_in_cell (x : list R) (y1 y2 : list fl) :
  length y1 = length y2 -> length x = length y1 ->
  Forall num_or_nan y1 -> Forall num_or_nan y2 ->
  (forall j, (S j < length x)%nat -> nth j x 0 <= nth (S j) x 0) ->
  find_intersection (map Num x) y1 y2 = Ok None \/
  find_intersection (map Num x) y1 y2 = Ok (Some NaN) \/
  exists i c d1 d2,
    (S i < length x)%nat /\
    fsub (nth i y1 NaN) (nth i y2 NaN) = Num d1 /\
    fsub (nth (S i) y1 NaN) (nth (S i) y2 NaN) = Num d2 /\
    Rsign d1 <> Rsign d2 /\
    find_intersection (map Num x) y1 y2 = Ok (Some (Num c)) /\
    nth i x 0 <= c <= nth (S i) x 0 /\
    (nth (S i) x 0 - nth i x 0 <> 0 ->
     d1 + (d2 - d1) * (c - nth i x 0) / (nth (S i) x 0 - nth i x 0) = 0).
Proof. exact (find_intersection_cell_cases x y1 y2). Qed.

Lemma find_intersection_in_cell_witness :
  find_intersection (map Num [0; 1]) [Num 1; Num 0] [Num 0; Num 1] = Ok None \/
  find_intersection (map Num [0; 1]) [Num 1; Num 0] [Num 0; Num 1]
    = Ok (Some NaN) \/
  exists i c d1 d2,
    (S i < length [0; 1])%nat /\
    fsub (nth i [Num 1; Num 0] NaN) (nth i [Num 0; Num 1] NaN) = Num d1 /\
    fsub (nth (S i) [Num 1; Num 0] NaN) (nth (S i) [Num 0; Num 1] NaN) = Num d2 /\
    Rsign d1 <> Rsign d2 /\
    find_intersection (map Num [0; 1]) [Num 1; Num 0] [Num 0; Num 1]
      = Ok (Some (Num c)) /\
    nth i [0; 1] 0 <= c <= nth (S i) [0; 1] 0 /\
    (nth (S i) [0; 1] 0 - nth i [0; 1] 0 <> 0 ->
     d1 + (d2 - d1) * (c - nth i [0; 1] 0) / (nth (S i) [0; 1] 0 - nth i [0; 1] 0)
     = 0).
Proof.
  apply find_intersection_in_cell; try reflexivity.
  - repeat (apply Forall_cons; [right; eexists; reflexivity|]). apply Forall_nil.
  - repeat (apply Forall_cons; [right; eexists; reflexivity|]). apply Forall_nil.
  - intros j Hj. simpl in Hj. assert (j = 0%nat) as -> by lia. simpl. lra.
Defined.

(** ** [find_intersection]: exchanging the two curves *)

Lemma Rsign_opp (a : R) : Rsign (- a) = - Rsign a.
Proof.
  destruct (Rsign_cases a) as [[H E]|[[H E]|[H E]]]; rewrite E;
    unfold Rsign.
  - rewrite (Rltb_ge 0 (- a)), (Rltb_lt (- a) 0) by lra. reflexivity.
  - rewrite (Rltb_lt 0 (- a)) by lra. lra.
  - rewrite (Rltb_ge 0 (- a)), (Rltb_ge (- a) 0) by lra. lra.
Qed.

Lemma Rsign_opp_neq (a b : R) :
  Rsign a <> Rsign b -> Rsign (- a) <> Rsign (- b).
Proof. rewrite !Rsign_opp. intros H E. apply H. lra. Qed.

Lemma changes_opp (a b : R) :
  changes (Num (- a)) (Num (- b)) = changes (Num a) (Num b).
Proof.
  destruct (changes (Num a) (Num b)) eqn:E.
  - apply changes_Num_true. apply Rsign_opp_neq. now apply changes_Num_true.
  - apply changes_Num_false. rewrite !Rsign_opp. f_equal.
    now apply changes_Num_false.
Qed.

Lemma np_where_from_ext (d : list fl) : forall d' k,
  length d = length d' ->
  (forall j, (S j < length d)%nat ->
     changes (nth j d NaN) (nth (S j) d NaN)
     = changes (nth j d' NaN) (nth (S j) d' NaN)) ->
  np_where_from k (np_diff (map np_sign d))
  = np_where_from k (np_diff (map np_sign d')).
Proof.
  induction d as [|a d IH]; intros [|a' d'] k Hlen Hall;
    try discriminate; [reflexivity|].
  destruct d as [|b d]; destruct d' as [|b' d']; try discriminate;
    [reflexivity|].
  change (map np_sign (a :: b :: d))
    with (np_sign a :: np_sign b :: map np_sign d).
  change (map np_sign (a' :: b' :: d'))
    with (np_sign a' :: np_sign b' :: map np_sign d').
  rewrite !np_diff_cons2. cbn [np_where_from].
  pose proof (Hall 0%nat ltac:(simpl; lia)) as H0. cbn [nth] in H0.
  unfold changes in H0. rewrite H0.
  assert (Htail : np_where_from (S k) (np_diff (map np_sign (b :: d)))
                  = np_where_from (S k) (np_diff (map np_sign (b' :: d')))).
  { apply IH; [simpl in Hlen |- *; lia|].
    intros j Hj. apply (Hall (S j)). simpl in Hj |- *. lia. }
  change (map np_sign (b :: d)) with (np_sign b :: map np_sign d) in Htail.
  change (map np_sign (b' :: d')) with (np_sign b' :: map np_sign d') in Htail.
  now rewrite Htail.
Qed.

Lemma sign_change_Rdiff_swap (y1 y2 : list R) :
  length y1 = length y2 ->
  sign_change (map Num (Rdiff y2 y1)) = sign_change (map Num (Rdiff y1 y2)).
Proof.
  intros Hy. unfold sign_change, np_where. apply np_where_from_ext.
  - now rewrite !length_map, !Rdiff_length.
  - intros j Hj. rewrite length_map, Rdiff_length in Hj by easy.
    rewrite !nth_map_Num by (rewrite Rdiff_length; congruence || lia).
    rewrite !(Rdiff_nth y2 y1), !(Rdiff_nth y1 y2) by easy.
    replace (nth j y2 0 - nth j y1 0) with (- (nth j y1 0 - nth j y2 0)) by lra.
    replace (nth (S j) y2 0 - nth (S j) y1 0)
      with (- (nth (S j) y1 0 - nth (S j) y2 0)) by lra.
    apply changes_opp.
Qed.

(** On real curves of equal length the result does not depend on the order
    in which the two curves are passed. *)
Theorem find_intersection_swap (x y1 y2 : list R) :
  length y1 = length y2 -> length x = length y1 ->
  find_intersection (map Num x) (map Num y2) (map Num y1)
  = find_intersection (map Num x) (map Num y1) (map Num y2).
Proof.
  intros Hy Hx.
  destruct (sign_change (map Num (Rdiff y1 y2))) as [|idx rest] eqn:Hsc.
  - unfold find_intersection. rewrite !np_sub_Num by easy. cbn [bind].
    now rewrite sign_change_Rdiff_swap, Hsc.
  - assert (Hin : In idx (sign_change (map Num (Rdiff y1 y2))))
      by (rewrite Hsc; now left).
    destruct (np_where_from_In _ _ _ Hin) as (j & Hj & Hlen & Hc).
    simpl in Hj; subst j.
    rewrite length_map, Rdiff_length in Hlen by assumption.
    rewrite !nth_map_Num, !Rdiff_nth in Hc by (rewrite ?Rdiff_length; lia).
    apply changes_Num_true in Hc.
    rewrite (find_intersection_at x y1 y2 idx rest) by assumption.
    rewrite (find_intersection_at x y2 y1 idx rest).
    + do 3 f_equal. unfold crossing. field.
      pose proof (Rsign_neq_minus _ _ Hc). lra.
    + congruence.
    + congruence.
    + lia.
    + now rewrite sign_change_Rdiff_swap.
    + replace (nth idx y2 0 - nth idx y1 0)
        with (- (nth idx y1 0 - nth idx y2 0)) by lra.
      replace (nth (S idx) y2 0 - nth (S idx) y1 0)
        with (- (nth (S idx) y1 0 - nth (S idx) y2 0)) by lra.
      now apply Rsign_opp_neq.
Qed.

Lemma find_intersection_swap_witness :
  find_intersection (map Num [0; 1]) (map Num [0; 1]) (map Num [1; 0])
  = find_intersection (map Num [0; 1]) (map Num [1; 0]) (map Num [0; 1]).
Proof.
  apply find_intersection_swap; reflexivity.
Defined.

(** ** Table B-1 and the dictionaries *)

Lemma dict_get_build {V : Type} (f : R -> V) (l : list R) (k : R) :
  In k l -> dict_get (map (fun a => (a, f a)) l) k = Ok (f k).
Proof.
  induction l as [|a l IH]; intros Hin; [destruct Hin|].
  cbn [map dict_get]. destruct (Reqb a k) eqn:E.
  - apply Reqb_true in E. now subst.
  - apply Reqb_false in E. destruct Hin as [Ha|Hin]; [contradiction|auto].
Qed.

Lemma dict_get_In {V : Type} (d : list (R * V)) (k : R) :
  In k (map fst d) -> exists v, dict_get d k = Ok v.
Proof.
  induction d as [|[a v] d IH]; intros Hin; [destruct Hin|].
  cbn [dict_get]. destruct (Reqb a k) eqn:E; [now eexists|].
  apply Reqb_false in E. destruct Hin as [Ha|Hin]; [contradiction|auto].
Qed.

Lemma dict_get_not_In {V : Type} (d : list (R * V)) (k : R) :
  ~ In k (map fst d) -> dict_get d k = Raise.
Proof.
  induction d as [|[a v] d IH]; intros Hin; [reflexivity|].
  cbn [dict_get]. destruct (Reqb a k) eqn:E.
  - apply Reqb_true in E. exfalso. apply Hin. now left.
  - apply IH. intros H. apply Hin. now right.
Qed.

(** When every coefficient has a linear equilibrium and the non-linear
    equilibrium exists, Table B-1 has exactly one row per coefficient, in the
    order of the list, and each row's deviation is the linear minus the
    non-linear equilibrium. *)
Theorem table_B1_complete (dict : list (R * option fl)) (nl : fl) :
  forall lams,
    (forall lam, In lam lams -> exists l, dict_get dict lam = Ok (Some l)) ->
    exists rows,
      table_B1 lams dict (Some nl) = Ok rows /\
      map row_lam rows = lams /\
      forall r, In r rows ->
        dict_get dict (row_lam r) = Ok (Some (row_lin r)) /\
        row_nonlin r = nl /\
        row_diff r = fsub (row_lin r) nl.
Proof.
  induction lams as [|lam lams IH]; intros Hkeys.
  - exists []. split; [reflexivity|]. split; [reflexivity|]. intros r [].
  - destruct (Hkeys lam (or_introl eq_refl)) as [l Hl].
    destruct IH as (rows & Hrows & Hmap & Hin).
    { intros k Hk. apply Hkeys. now right. }
    cbn [table_B1]. rewrite Hl, Hrows. cbn [bind].
    eexists. split; [reflexivity|]. split.
    + cbn [map row_lam]. now rewrite Hmap.
    + intros r0 Hr. destruct Hr as [E|Hr]; [|now apply Hin].
      subst r0. now repeat split.
Qed.

Lemma table_B1_complete_witness :
  exists rows,
    table_B1 [0.2] [(0.2, Some (Num 0.5))] (Some (Num 0.4)) = Ok rows /\
    map row_lam rows = [0.2] /\
    forall r, In r rows ->
      dict_get [(0.2, Some (Num 0.5))] (row_lam r) = Ok (Some (row_lin r)) /\
      row_nonlin r = Num 0.4 /\
      row_diff r = fsub (row_lin r) (Num 0.4).
Proof.
  apply table_B1_complete.
  intros lam [<-|[]]. exists (Num 0.5). cbn [dict_get].
  rewrite (proj2 (Reqb_true 0.2 0.2)) by reflexivity. reflexivity.
Defined.

(** A coefficient of the list that is absent from the dictionary makes the
    table loop raise [KeyError]. *)
Theorem table_B1_missing_key (dict : list (R * option fl)) (nl : option fl)
    (lam : R) :
  forall lams, In lam lams -> ~ In lam (map fst dict) ->
  table_B1 lams dict nl = Raise.
Proof.
  intros lams Hin Hmiss. apply dict_get_not_In in Hmiss.
  induction lams as [|a lams IH]; [destruct Hin|].
  cbn [table_B1]. destruct Hin as [->|Hin].
  - now rewrite Hmiss.
  - rewrite (IH Hin). destruct (dict_get dict a); reflexivity.
Qed.

Lemma table_B1_missing_key_witness :
  table_B1 [0.2; 0.25] [(0.2, Some (Num 0.5))] (Some (Num 0.4)) = Raise.
Proof.
  apply (table_B1_missing_key _ _ 0.25).
  - right; now left.
  - simpl. intros [H|[]]. lra.
Defined.

(** Without a non-linear equilibrium the table has no row at all, whatever
    the linear equilibria are. *)
Theorem table_B1_no_nonlinear (dict : list (R * option fl)) :
  forall lams,
    (forall lam, In lam lams -> In lam (map fst dict)) ->
    table_B1 lams dict None = Ok [].
Proof.
  induction lams as [|lam lams IH]; intros Hkeys; [reflexivity|].
  destruct (dict_get_In dict lam (Hkeys lam (or_introl eq_refl))) as [v Hv].
  cbn [table_B1]. rewrite Hv, IH by (intros k Hk; apply Hkeys; now right).
  cbn [bind]. destruct v; reflexivity.
Qed.

Lemma table_B1_no_nonlinear_witness :
  table_B1 [0.2] [(0.2, Some (Num 0.5))] None = Ok [].
Proof.
  apply table_B1_no_nonlinear. intros lam [<-|[]]. now left.
Defined.

(** ** Boolean-mask indexing *)

Lemma select_length {A B : Type} (mask : list bool) :
  forall (a : list A) (b : list B),
    length a = length b -> length (select mask a) = length (select mask b).
Proof.
  induction mask as [|m mask IH]; intros [|v a] [|w b] Hlen;
    simpl in *; try discriminate; try reflexivity.
  destruct m; simpl; [f_equal|]; apply IH; lia.
Qed.

Lemma select_map {A B : Type} (f : A -> B) (mask : list bool) :
  forall a : list A, select mask (map f a) = map f (select mask a).
Proof.
  induction mask as [|m mask IH]; intros [|v a]; simpl; try reflexivity.
  destruct m; simpl; [f_equal|]; apply IH.
Qed.

Lemma select_In {A : Type} (mask : list bool) :
  forall (a : list A) (v : A), In v (select mask a) -> In v a.
Proof.
  induction mask as [|m mask IH]; intros [|w a] v Hin; simpl in *;
    try contradiction.
  destruct m; [destruct Hin as [->|Hin]|]; auto.
Qed.

Lemma select_Forall {A : Type} (P : A -> Prop) (mask : list bool) (a : list A) :
  Forall P a -> Forall P (select mask a).
Proof.
  rewrite !Forall_forall. intros H v Hv. apply H. now apply select_In in Hv.
Qed.

(** ** Lengths of the curves of the script *)

Lemma sigma_grid_length : length sigma_grid = N_POINTS.
Proof. unfold sigma_grid, linspace. now rewrite length_map, length_seq. Qed.

Lemma E_T_length : length E_T = length sigma_grid.
Proof. unfold E_T. rewrite physical_anchor_map. apply length_map. Qed.

Lemma psychological_anchor_linear_length (sigma : list fl) (lam r : fl) :
  length (psychological_anchor_linear sigma lam r) = length sigma.
Proof. unfold psychological_anchor_linear. now rewrite !length_map. Qed.

Lemma n_lin_dict_get (lam : R) :
  In lam LAMBDA_LIST ->
  dict_get n_lin_dict lam
  = Ok (psychological_anchor_linear sigma_grid (Num lam) (Num R_)).
Proof.
  intros Hin. unfold n_lin_dict.
  apply (dict_get_build
           (fun a => psychological_anchor_linear sigma_grid (Num a) (Num R_))
           LAMBDA_LIST lam Hin).
Qed.

Lemma sigma_star_lin_dict_of_ok : forall lams,
  incl lams LAMBDA_LIST ->
  exists d,
    sigma_star_lin_dict_of lams = Ok d /\
    map fst d = lams /\
    forall lam v, In (lam, v) d ->
      In lam lams /\
      find_intersection sigma_grid
        (psychological_anchor_linear sigma_grid (Num lam) (Num R_)) E_T = Ok v.
Proof.
  induction lams as [|lam lams IH]; intros Hincl.
  - exists []. split; [reflexivity|]. split; [reflexivity|]. intros ? ? [].
  - destruct IH as (d & Hd & Hfst & Hval).
    { intros k Hk. apply Hincl. now right. }
    destruct (find_intersection_ok sigma_grid
                (psychological_anchor_linear sigma_grid (Num lam) (Num R_)) E_T)
      as [s Hs].
    { now rewrite psychological_anchor_linear_length, E_T_length. }
    { now rewrite psychological_anchor_linear_length. }
    exists ((lam, s) :: d). cbn [sigma_star_lin_dict_of].
    rewrite n_lin_dict_get by (apply Hincl; now left).
    cbn [bind]. rewrite Hs, Hd. cbn [bind].
    split; [reflexivity|]. split; [cbn [map fst]; now rewrite Hfst|].
    intros k v [E|Hin].
    + injection E as <- <-. split; [now left | exact Hs].
    + destruct (Hval k v Hin). split; [now right | assumption].
Qed.

Lemma table_B1_length (dict : list (R * option fl)) (nl : option fl) :
  forall lams rows,
    table_B1 lams dict nl = Ok rows -> (length rows <= length lams)%nat.
Proof.
  induction lams as [|lam lams IH]; intros rows H.
  - injection H as <-. simpl. lia.
  - cbn [table_B1] in H.
    destruct (dict_get dict lam) as [v|]; [|discriminate]. cbn [bind] in H.
    destruct (table_B1 lams dict nl) as [rest|]; [|discriminate].
    cbn [bind] in H. specialize (IH rest eq_refl).
    destruct v as [l|]; [destruct nl|]; injection H as <-; simpl; lia.
Qed.

(** Sections 3 to 5 of the script raise no exception, whatever the normal
    distribution function and the root finder do: both equilibria are
    computed, the dictionary holds the coefficients of [LAMBDA_LIST] in order,
    and the table has at most one row per coefficient. *)
Theorem script_no_exception (Phi : R -> R) (root_scalar : root_finder) :
  exists nl d rows,
    sigma_star_nonlin Phi root_scalar = Ok nl /\
    sigma_star_lin_dict_of LAMBDA_LIST = Ok d /\
    map fst d = LAMBDA_LIST /\
    table_B1_run Phi root_scalar = Ok rows /\
    (length rows <= length LAMBDA_LIST)%nat /\
    (nl = None -> rows = []).
Proof.
  destruct (find_intersection_ok
              (sigma_valid Phi root_scalar) (n_nonlin_valid Phi root_scalar)
              (select (valid_mask Phi root_scalar) E_T)) as [nl Hnl].
  { unfold n_nonlin_valid. apply select_length.
    unfold n_nonlin, n_nonlin_of. now rewrite length_map, E_T_length. }
  { unfold n_nonlin_valid, sigma_valid.
    rewrite (select_length _ (n_nonlin Phi root_scalar) sigma_grid);
      [lia|]. unfold n_nonlin, n_nonlin_of. now rewrite length_map. }
  destruct (sigma_star_lin_dict_of_ok LAMBDA_LIST (incl_refl _))
    as (d & Hd & Hfst & _).
  destruct (table_B1_rows d nl LAMBDA_LIST) as (rows & Hrows & Hin).
  { intros lam Hlam. apply dict_get_In. now rewrite Hfst. }
  exists nl, d, rows.
  assert (Hrun : table_B1_run Phi root_scalar = Ok rows).
  { unfold table_B1_run, sigma_star_nonlin. rewrite Hnl. cbn [bind].
    rewrite Hd. cbn [bind]. exact Hrows. }
  repeat split; trivial.
  - apply (table_B1_length d nl _ _ Hrows).
  - intros ->. destruct rows as [|r rows]; [reflexivity|].
    destruct (Hin r (or_introl eq_refl)) as (_ & _ & H). discriminate.
Qed.

(** ** Sorted grids *)

Lemma map_seq_sorted (f : nat -> R) :
  (forall i j, (i <= j)%nat -> f i <= f j) ->
  forall n k, StronglySorted Rle (map f (seq k n)).
Proof.
  intros Hf. induction n as [|n IH]; intros k; [constructor|].
  cbn [seq map]. constructor; [apply IH|].
  apply Forall_forall. intros v Hv.
  apply in_map_iff in Hv as (i & <- & Hi). apply in_seq in Hi.
  apply Hf. lia.
Qed.

Lemma linspace_reals_sorted (start stop : R) (num : nat) :
  start <= stop -> StronglySorted Rle (linspace_reals start stop num).
Proof.
  intros Hle. unfold linspace_reals. apply map_seq_sorted.
  intros i j Hij.
  assert (Hstep : 0 <= (stop - start) / INR (num - 1)).
  { destruct (Nat.eq_dec (num - 1) 0) as [->|Hn].
    - simpl. unfold Rdiv. rewrite Rinv_0. lra.
    - apply Rmult_le_pos; [lra|]. left. apply Rinv_0_lt_compat.
      apply lt_0_INR. lia. }
  apply le_INR in Hij. nra.
Qed.

Lemma select_sorted (mask : list bool) : forall x : list R,
  StronglySorted Rle x -> StronglySorted Rle (select mask x).
Proof.
  induction mask as [|m mask IH]; intros [|v x] Hs; simpl; try constructor.
  apply StronglySorted_inv in Hs as [Hs Hall].
  destruct m; [|now apply IH].
  constructor; [now apply IH | now apply select_Forall].
Qed.

Lemma sorted_nth_adjacent (x : list R) :
  StronglySorted Rle x ->
  forall j, (S j < length x)%nat -> nth j x 0 <= nth (S j) x 0.
Proof.
  induction 1 as [|a x Hs IH Hall]; intros j Hj; [simpl in Hj; lia|].
  destruct j as [|j].
  - cbn [nth]. destruct x as [|b x]; [simpl in Hj; lia|].
    now apply Forall_inv in Hall.
  - apply IH. simpl in Hj. lia.
Qed.

(** ** The equilibria lie in the sampled domain *)

Lemma find_intersection_range (x : list R) (y1 y2 : list fl) (a b : R) :
  length y1 = length y2 -> length x = length y1 ->
  Forall num_or_nan y1 -> Forall num_or_nan y2 ->
  StronglySorted Rle x -> Forall (fun s => a <= s <= b) x ->
  find_intersection (map Num x) y1 y2 = Ok None \/
  find_intersection (map Num x) y1 y2 = Ok (Some NaN) \/
  exists c, find_intersection (map Num x) y1 y2 = Ok (Some (Num c)) /\
            a <= c <= b.
Proof.
  intros Hy Hx Hn1 Hn2 Hs Hr.
  destruct (find_intersection_cell_cases x y1 y2 Hy Hx Hn1 Hn2
              (sorted_nth_adjacent x Hs))
    as [E|[E|(i & c & d1 & d2 & Hi & _ & _ & _ & E & Hc & _)]]; auto.
  right; right. exists c. split; [exact E|].
  rewrite Forall_forall in Hr.
  pose proof (Hr _ (nth_In x 0 (Nat.lt_trans _ _ _ (Nat.lt_succ_diag_r i) Hi))).
  pose proof (Hr _ (nth_In x 0 Hi)). lra.
Qed.

Lemma sigma_grid_sorted :
  StronglySorted Rle (linspace_reals SIGMA_MIN SIGMA_MAX N_POINTS).
Proof. apply linspace_reals_sorted. unfold SIGMA_MIN, SIGMA_MAX. lra. Qed.

Lemma sigma_grid_range :
  Forall (fun s => SIGMA_MIN <= s <= SIGMA_MAX)
         (linspace_reals SIGMA_MIN SIGMA_MAX N_POINTS).
Proof.
  apply Forall_forall. intros s Hs.
  apply (linspace_reals_range SIGMA_MIN SIGMA_MAX N_POINTS s); trivial.
  - unfold SIGMA_MIN, SIGMA_MAX. lra.
  - unfold N_POINTS. lia.
Qed.

Lemma physical_anchor_num_or_nan (sigma : list R) (g M0 : R) :
  0 < M0 ->
  Forall num_or_nan (physical_anchor (map Num sigma) (Num g) (Num M0)).
Proof.
  intros HM. rewrite physical_anchor_map, map_map.
  apply Forall_forall. intros v Hv.
  apply in_map_iff in Hv as (s & <- & _).
  destruct (Rle_dec (g - 0.5 * (s * s)) 0) as [H|H].
  - left. now apply physical_anchor_at_nonpos.
  - right. eexists. apply physical_anchor_at_pos; lra.
Qed.

Lemma psychological_anchor_linear_num_or_nan (sigma : list R) (lam r : R) :
  0 <= lam -> 0 < r -> Forall (fun s => 0 <= s) sigma ->
  Forall num_or_nan (psychological_anchor_linear (map Num sigma) (Num lam) (Num r)).
Proof.
  intros Hlam Hr Hs. unfold psychological_anchor_linear. rewrite !map_map.
  apply Forall_forall. intros v Hv.
  apply in_map_iff in Hv as (s & <- & Hin).
  rewrite Forall_forall in Hs. specialize (Hs s Hin).
  right. eexists. rewrite fmul_Num, fadd_Num. apply fdiv_Num. nra.
Qed.

Lemma LAMBDA_LIST_nonneg (lam : R) : In lam LAMBDA_LIST -> 0 <= lam.
Proof.
  unfold LAMBDA_LIST. intros [<-|[<-|[<-|[]]]]; lra.
Qed.

Lemma linear_equilibrium_range (grid : list R) (lam r g M0 a b : R) :
  0 <= lam -> 0 < r -> 0 < M0 ->
  StronglySorted Rle grid -> Forall (fun s => 0 <= s) grid ->
  Forall (fun s => a <= s <= b) grid ->
  find_intersection (map Num grid)
    (psychological_anchor_linear (map Num grid) (Num lam) (Num r))
    (physical_anchor (map Num grid) (Num g) (Num M0)) = Ok None \/
  find_intersection (map Num grid)
    (psychological_anchor_linear (map Num grid) (Num lam) (Num r))
    (physical_anchor (map Num grid) (Num g) (Num M0)) = Ok (Some NaN) \/
  exists c,
    find_intersection (map Num grid)
      (psychological_anchor_linear (map Num grid) (Num lam) (Num r))
      (physical_anchor (map Num grid) (Num g) (Num M0)) = Ok (Some (Num c)) /\
    a <= c <= b.
Proof.
  intros Hlam Hr HM Hsort Hpos Hrange.
  apply find_intersection_range; trivial.
  - rewrite psychological_anchor_linear_length, physical_anchor_map.
    rewrite !length_map. reflexivity.
  - rewrite psychological_anchor_linear_length, length_map. reflexivity.
  - apply psychological_anchor_linear_num_or_nan; assumption.
  - apply physical_anchor_num_or_nan; assumption.
Qed.

Lemma script_linear_equilibrium (lam : R) :
  0 <= lam ->
  find_intersection sigma_grid
    (psychological_anchor_linear sigma_grid (Num lam) (Num R_)) E_T = Ok None \/
  find_intersection sigma_grid
    (psychological_anchor_linear sigma_grid (Num lam) (Num R_)) E_T
    = Ok (Some NaN) \/
  exists c,
    find_intersection sigma_grid
      (psychological_anchor_linear sigma_grid (Num lam) (Num R_)) E_T
    = Ok (Some (Num c)) /\
    SIGMA_MIN <= c <= SIGMA_MAX.
Proof.
  intros Hlam. destruct sigma_grid_reals as (Hgrid & _ & Hrange).
  unfold E_T. rewrite Hgrid.
  apply linear_equilibrium_range.
  - exact Hlam.
  - unfold R_. lra.
  - unfold M. lra.
  - exact sigma_grid_sorted.
  - apply Forall_forall. intros s Hs. specialize (Hrange s Hs). lra.
  - exact sigma_grid_range.
Qed.

(** The linear equilibrium stays inside the sampled domain: on a sorted grid
    of non-negative volatilities within [[a, b]], with [lam >= 0], [r > 0] and
    [M > 0], intersecting the linear psychological anchor with the physical
    anchor gives [None], NaN, or a volatility in [[a, b]].  So every entry of
    the script's dictionary of linear equilibria is [None], NaN, or lies in
    [[SIGMA_MIN, SIGMA_MAX]]. *)
Theorem linear_equilibria_in_domain :
  (forall (grid : list R) (lam r g M0 a b : R),
     0 <= lam -> 0 < r -> 0 < M0 ->
     StronglySorted Rle grid -> Forall (fun s => 0 <= s) grid ->
     Forall (fun s => a <= s <= b) grid ->
     find_intersection (map Num grid)
       (psychological_anchor_linear (map Num grid) (Num lam) (Num r))
       (physical_anchor (map Num grid) (Num g) (Num M0)) = Ok None \/
     find_intersection (map Num grid)
       (psychological_anchor_linear (map Num grid) (Num lam) (Num r))
       (physical_anchor (map Num grid) (Num g) (Num M0)) = Ok (Some NaN) \/
     exists c,
       find_intersection (map Num grid)
         (psychological_anchor_linear (map Num grid) (Num lam) (Num r))
         (physical_anchor (map Num grid) (Num g) (Num M0))
       = Ok (Some (Num c)) /\
       a <= c <= b) /\
  exists d,
    sigma_star_lin_dict_of LAMBDA_LIST = Ok d /\
    map fst d = LAMBDA_LIST /\
    forall lam v, In (lam, v) d ->
      v = None \/ v = Some NaN \/
      exists c, v = Some (Num c) /\ SIGMA_MIN <= c <= SIGMA_MAX.
Proof.
  split; [exact linear_equilibrium_range|].
  destruct (sigma_star_lin_dict_of_ok LAMBDA_LIST (incl_refl _))
    as (d & Hd & Hfst & Hval).
  exists d. split; [exact Hd|]. split; [exact Hfst|].
  intros lam v Hin. destruct (Hval lam v Hin) as [Hlam Hv].
  destruct (script_linear_equilibrium lam (LAMBDA_LIST_nonneg lam Hlam))
    as [E|[E|(c & E & Hc)]]; rewrite Hv in E; injection E as ->.
  - left. reflexivity.
  - right; left. reflexivity.
  - right; right. exists c. split; [reflexivity | exact Hc].
Qed.

Lemma linear_equilibria_in_domain_witness :
  find_intersection (map Num [0.1; 0.6])
    (psychological_anchor_linear (map Num [0.1; 0.6]) (Num 0.2) (Num 0.018))
    (physical_anchor (map Num [0.1; 0.6]) (Num 0.2) (Num 2)) = Ok None \/
  find_intersection (map Num [0.1; 0.6])
    (psychological_anchor_linear (map Num [0.1; 0.6]) (Num 0.2) (Num 0.018))
    (physical_anchor (map Num [0.1; 0.6]) (Num 0.2) (Num 2)) = Ok (Some NaN) \/
  exists c,
    find_intersection (map Num [0.1; 0.6])
      (psychological_anchor_linear (map Num [0.1; 0.6]) (Num 0.2) (Num 0.018))
      (physical_anchor (map Num [0.1; 0.6]) (Num 0.2) (Num 2))
    = Ok (Some (Num c)) /\
    0.1 <= c <= 0.6.
Proof.
  apply (proj1 linear_equilibria_in_domain [0.1; 0.6] 0.2 0.018 0.2 2 0.1 0.6);
    try lra.
  - repeat constructor; lra.
  - repeat (apply Forall_cons; [lra|]). apply Forall_nil.
  - repeat (apply Forall_cons; [lra|]). apply Forall_nil.
Defined.

(** ** The valid part of the non-linear curve *)

(** Masking keeps the grid and the solved curve aligned: on any grid, the
    valid curve is the solver applied to the valid grid points, it holds no
    NaN, and both have the same length, at most that of the grid. *)
Theorem valid_subcurve_aligned (Phi : R -> R) (root_scalar : root_finder)
    (grid : list fl) :
  let nn := n_nonlin_of Phi root_scalar grid in
  let mask := valid_mask_of nn in
  select mask nn
  = map (fun s => psychological_anchor_nonlinear Phi root_scalar s (Num R_)
                    (Num 0.4))
        (select mask grid) /\
  Forall (fun v => isnan v = false) (select mask nn) /\
  length (select mask grid) = length (select mask nn) /\
  (length (select mask nn) <= length grid)%nat.
Proof.
  cbv zeta. unfold n_nonlin_of, valid_mask_of.
  induction grid as [|s grid (IH1 & IH2 & IH3 & IH4)]; cbn [map select].
  - repeat split; [constructor | simpl; lia].
  - destruct (isnan (psychological_anchor_nonlinear Phi root_scalar s (Num R_)
                       (Num 0.4))) eqn:E; cbn [negb].
    + repeat split; trivial. simpl. lia.
    + cbn [map length]. repeat split.
      * now rewrite IH1.
      * now constructor.
      * now rewrite IH3.
      * lia.
Qed.

Lemma n_nonlin_num_or_nan (Phi : R -> R) (root_scalar : root_finder) :
  bisection_contract root_scalar ->
  Forall num_or_nan (n_nonlin Phi root_scalar).
Proof.
  intros Hrs. destruct sigma_grid_reals as (Hgrid & _ & Hrange).
  unfold n_nonlin, n_nonlin_of. rewrite Hgrid, map_map.
  apply Forall_forall. intros v Hv.
  apply in_map_iff in Hv as (s & <- & Hs). specialize (Hrange s Hs).
  destruct (solver_result Phi root_scalar Hrs s R_ ltac:(lra)
              ltac:(unfold R_; lra)) as [E|(n & E & _)].
  - now left.
  - right. now exists n.
Qed.

(** Under the contract of the root finder, the non-linear equilibrium of the
    script is [None], NaN, or a volatility inside the sampled domain
    [[SIGMA_MIN, SIGMA_MAX]]. *)
Theorem nonlinear_equilibrium_in_domain (Phi : R -> R)
    (root_scalar : root_finder) (Hrs : bisection_contract root_scalar) :
  sigma_star_nonlin Phi root_scalar = Ok None \/
  sigma_star_nonlin Phi root_scalar = Ok (Some NaN) \/
  exists c, sigma_star_nonlin Phi root_scalar = Ok (Some (Num c)) /\
            SIGMA_MIN <= c <= SIGMA_MAX.
Proof.
  destruct sigma_grid_reals as (Hgrid & Hlen & _).
  unfold sigma_star_nonlin, sigma_valid, n_nonlin_valid.
  rewrite Hgrid, select_map.
  assert (Hnn : length (n_nonlin Phi root_scalar)
                = length (linspace_reals SIGMA_MIN SIGMA_MAX N_POINTS)).
  { unfold n_nonlin, n_nonlin_of. now rewrite Hgrid, !length_map. }
  apply find_intersection_range.
  - apply select_length. now rewrite E_T_length, Hgrid, length_map.
  - apply select_length. now rewrite Hnn.
  - apply select_Forall. now apply n_nonlin_num_or_nan.
  - apply select_Forall. unfold E_T. rewrite Hgrid.
    apply physical_anchor_num_or_nan. unfold M. lra.
  - apply select_sorted. exact sigma_grid_sorted.
  - apply select_Forall. exact sigma_grid_range.
Qed.

Lemma nonlinear_equilibrium_in_domain_witness :
  sigma_star_nonlin Phi_logistic bisect = Ok None \/
  sigma_star_nonlin Phi_logistic bisect = Ok (Some NaN) \/
  exists c, sigma_star_nonlin Phi_logistic bisect = Ok (Some (Num c)) /\
            SIGMA_MIN <= c <= SIGMA_MAX.
Proof.
  exact (nonlinear_equilibrium_in_domain Phi_logistic bisect bisect_contract).
Defined.

(** Under the contract of the root finder, for [sigma >= 0] and
    [0.002 <= r + 0.4 sigma <= 20] a value returned by the solver lies in the
    bracket, hence in [[0.5, 50]]; so does every valid point of the sweep. *)
Theorem solver_value_range (Phi : R -> R) (root_scalar : root_finder)
    (Hrs : bisection_contract root_scalar) :
  (forall sigma r : R,
     0 <= sigma -> 0 < r -> 0.002 <= r + 0.4 * sigma <= 20 ->
     forall n,
       psychological_anchor_nonlinear Phi root_scalar (Num sigma) (Num r)
         (Num 0.4) = Num n ->
       bracket_low_of sigma r <= n <= bracket_high_of sigma r /\
       0.5 <= n <= 50) /\
  (forall v, In v (n_nonlin Phi root_scalar) ->
     v = NaN \/ exists n, v = Num n /\ 0.5 <= n <= 50).
Proof.
  assert (Hgen : forall sigma r : R,
     0 <= sigma -> 0 < r -> 0.002 <= r + 0.4 * sigma <= 20 ->
     forall n,
       psychological_anchor_nonlinear Phi root_scalar (Num sigma) (Num r)
         (Num 0.4) = Num n ->
       bracket_low_of sigma r <= n <= bracket_high_of sigma r /\
       0.5 <= n <= 50).
  { intros sigma r Hs Hr Hk n Hn.
    destruct (solver_result Phi root_scalar Hrs sigma r Hs Hr)
      as [E|(n' & E & Hin & _)]; rewrite E in Hn; [discriminate|].
    injection Hn as <-.
    destruct (bracket_pos sigma r Hs Hr) as (Hlo & _ & Hhi).
    assert (Hg : 0.05 <= n_guess_of sigma r <= 500).
    { unfold n_guess_of. set (k := r + 0.4 * sigma) in *.
      assert (Hq : 1 / k * k = 1) by (field; lra).
      assert (0 < 1 / k) by (apply Rdiv_lt_0_compat; lra).
      split; nra. }
    assert (Hord : bracket_low_of sigma r <= bracket_high_of sigma r).
    { unfold bracket_low_of, bracket_high_of.
      apply Rmin_glb; apply Rmax_lub; lra. }
    rewrite Rmin_left, Rmax_right in Hin by exact Hord. split; lra. }
  split; [exact Hgen|].
  intros v Hv. destruct sigma_grid_reals as (Hgrid & _ & Hrange).
  unfold n_nonlin, n_nonlin_of in Hv. rewrite Hgrid, map_map in Hv.
  apply in_map_iff in Hv as (s & <- & Hs). specialize (Hrange s Hs).
  destruct (solver_result Phi root_scalar Hrs s R_ ltac:(lra)
              ltac:(unfold R_; lra)) as [E|(n & E & _)]; [now left|].
  right. exists n. split; [exact E|].
  apply (Hgen s R_); trivial; unfold R_; lra.
Qed.

Lemma solver_value_range_witness :
  Forall (fun v => v = NaN \/ exists n, v = Num n /\ 0.5 <= n <= 50)
         (n_nonlin Phi_logistic bisect).
Proof.
  apply Forall_forall.
  exact (proj2 (solver_value_range Phi_logistic bisect bisect_contract)).
Defined.

(** ** The anchors: meltdown boundary and monotonicity *)

Lemma drift_vs_meltdown (g s : R) :
  0 <= g -> 0 <= s ->
  (g - 0.5 * (s * s) <= 0 <-> sqrt (2 * g) <= s).
Proof.
  intros Hg Hs.
  assert (Hq : sqrt (2 * g) * sqrt (2 * g) = 2 * g) by (apply sqrt_sqrt; lra).
  assert (H0 : 0 <= sqrt (2 * g)) by apply sqrt_pos.
  split; intros H.
  - destruct (Rle_dec (sqrt (2 * g)) s) as [|Hn]; [assumption|]. nra.
  - nra.
Qed.

Lemma sigma_meltdown_value : sigma_meltdown = Num (sqrt (2 * G)).
Proof.
  unfold sigma_meltdown. rewrite fmul_Num. apply fsqrt_Num. unfold G. lra.
Qed.

(** The physical anchor is undefined exactly from the meltdown volatility
    [sqrt (2 g)] on: for [g >= 0], [M > 0] and a grid point [s >= 0] the entry
    is NaN if and only if [sqrt (2 g) <= s], and a real number otherwise.  For
    the script's curve [E_T] the boundary is [sigma_meltdown]. *)
Theorem physical_anchor_meltdown :
  (forall (sigma : list R) (g M0 : R) (i : nat) (s : R),
     0 <= g -> 0 < M0 -> nth_error sigma i = Some s -> 0 <= s ->
     (nth_error (physical_anchor (map Num sigma) (Num g) (Num M0)) i = Some NaN
      <-> fle (fsqrt (fmul (Num 2) (Num g))) (Num s) = true) /\
     (s < sqrt (2 * g) ->
      nth_error (physical_anchor (map Num sigma) (Num g) (Num M0)) i
      = Some (Num (ln M0 / (g - 0.5 * (s * s)))))) /\
  (forall (i : nat) (s : R),
     nth_error (linspace_reals SIGMA_MIN SIGMA_MAX N_POINTS) i = Some s ->
     (nth_error E_T i = Some NaN <-> fle sigma_meltdown (Num s) = true)).
Proof.
  assert (Hgen : forall (sigma : list R) (g M0 : R) (i : nat) (s : R),
     0 <= g -> 0 < M0 -> nth_error sigma i = Some s -> 0 <= s ->
     (nth_error (physical_anchor (map Num sigma) (Num g) (Num M0)) i = Some NaN
      <-> fle (fsqrt (fmul (Num 2) (Num g))) (Num s) = true) /\
     (s < sqrt (2 * g) ->
      nth_error (physical_anchor (map Num sigma) (Num g) (Num M0)) i
      = Some (Num (ln M0 / (g - 0.5 * (s * s)))))).
  { intros sigma g M0 i s Hg HM Hi Hs.
    rewrite physical_anchor_map, map_map.
    rewrite (nth_error_map_Some _ _ _ _ Hi).
    rewrite fmul_Num, fsqrt_Num, fle_Num by lra.
    pose proof (drift_vs_meltdown g s Hg Hs) as Hd.
    split; [split|].
    - intros H. apply Rleb_true. apply Hd.
      destruct (Rle_dec (g - 0.5 * (s * s)) 0) as [|Hn]; [assumption|].
      rewrite physical_anchor_at_pos in H by lra. discriminate.
    - intros H. apply Rleb_true in H. apply Hd in H.
      now rewrite physical_anchor_at_nonpos.
    - intros H. rewrite physical_anchor_at_pos; [reflexivity | lra|].
      destruct (Rle_dec (g - 0.5 * (s * s)) 0) as [Hle|]; [|lra].
      apply Hd in Hle. lra. }
  split; [exact Hgen|].
  intros i s Hi. destruct sigma_grid_reals as (Hgrid & _ & Hrange).
  unfold E_T, sigma_meltdown. rewrite Hgrid.
  apply (Hgen _ G M i s); trivial.
  - unfold G. lra.
  - unfold M. lra.
  - specialize (Hrange s (nth_error_In _ _ Hi)). lra.
Qed.

Lemma physical_anchor_meltdown_witness :
  nth_error (physical_anchor (map Num [0.1; 1]) (Num 0.2) (Num 2)) 1 = Some NaN
  <-> fle (fsqrt (fmul (Num 2) (Num 0.2))) (Num 1) = true.
Proof.
  refine (proj1 (proj1 physical_anchor_meltdown [0.1; 1] 0.2 2 1%nat 1
                   _ _ eq_refl _)); lra.
Defined.

Lemma inv_drift_increasing (d1 d2 L : R) :
  0 < d2 -> d2 < d1 -> 0 < L -> 0 < L / d1 < L / d2.
Proof.
  intros H2 H12 HL.
  assert (H1 : 0 < / d1) by (apply Rinv_0_lt_compat; lra).
  assert (Hi : / d1 < / d2) by (apply Rinv_lt_contravar; nra).
  unfold Rdiv. split; nra.
Qed.

(** On the region where the physical anchor is defined, it is positive and
    strictly increasing in the volatility (for [M > 1]), the linear
    psychological anchor is strictly decreasing (for [lam > 0], [r > 0]), and
    so their difference is strictly decreasing: the two curves cross at most
    once there. *)
Theorem anchors_monotone (sigma : list R) (g M0 lam r : R) (i j : nat)
    (s1 s2 : R) :
  1 < M0 -> 0 < lam -> 0 < r ->
  nth_error sigma i = Some s1 -> nth_error sigma j = Some s2 ->
  0 <= s1 < s2 -> 0 < g - 0.5 * (s2 * s2) ->
  exists e1 e2 n1 n2,
    nth_error (physical_anchor (map Num sigma) (Num g) (Num M0)) i
      = Some (Num e1) /\
    nth_error (physical_anchor (map Num sigma) (Num g) (Num M0)) j
      = Some (Num e2) /\
    nth_error (psychological_anchor_linear (map Num sigma) (Num lam) (Num r)) i
      = Some (Num n1) /\
    nth_error (psychological_anchor_linear (map Num sigma) (Num lam) (Num r)) j
      = Some (Num n2) /\
    0 < e1 < e2 /\ 0 < n2 < n1 /\ n2 - e2 < n1 - e1.
Proof.
  intros HM Hlam Hr Hi Hj Hs Hd2.
  assert (Hd1 : g - 0.5 * (s2 * s2) < g - 0.5 * (s1 * s1)) by nra.
  assert (HL : 0 < ln M0) by (rewrite <- ln_1; apply ln_increasing; lra).
  exists (ln M0 / (g - 0.5 * (s1 * s1))), (ln M0 / (g - 0.5 * (s2 * s2))),
         (1 / (r + lam * s1)), (1 / (r + lam * s2)).
  rewrite physical_anchor_map, !map_map.
  unfold psychological_anchor_linear. rewrite !map_map.
  rewrite !(nth_error_map_Some _ _ _ _ Hi), !(nth_error_map_Some _ _ _ _ Hj).
  rewrite !physical_anchor_at_pos by lra.
  rewrite !fmul_Num, !fadd_Num, !fdiv_Num by nra.
  pose proof (inv_drift_increasing _ _ (ln M0) Hd2 Hd1 HL) as He.
  assert (Hn : 0 < 1 / (r + lam * s2) < 1 / (r + lam * s1)).
  { apply inv_drift_increasing; nra. }
  repeat split; try reflexivity; lra.
Qed.

Lemma anchors_monotone_witness :
  exists e1 e2 n1 n2,
    nth_error (physical_anchor (map Num [0.1; 0.2]) (Num 0.2) (Num 2)) 0
      = Some (Num e1) /\
    nth_error (physical_anchor (map Num [0.1; 0.2]) (Num 0.2) (Num 2)) 1
      = Some (Num e2) /\
    nth_error (psychological_anchor_linear (map Num [0.1; 0.2]) (Num 0.2)
                 (Num 0.018)) 0 = Some (Num n1) /\
    nth_error (psychological_anchor_linear (map Num [0.1; 0.2]) (Num 0.2)
                 (Num 0.018)) 1 = Some (Num n2) /\
    0 < e1 < e2 /\ 0 < n2 < n1 /\ n2 - e2 < n1 - e1.
Proof.
  apply (anchors_monotone [0.1; 0.2] 0.2 2 0.2 0.018 0 1 0.1 0.2);
    try reflexivity; lra.
Defined.

(** ** The scalar engine of [rate_simulation.py] *)

(** [calc_physical_time] never returns NaN on real arguments with [M > 0]: it
    is [+inf] where the drift is not positive, and where the drift is positive
    it is the very entry that [physical_anchor] computes; where
    [physical_anchor] is NaN, [calc_physical_time] is [+inf]. *)
Theorem calc_physical_time_agrees (sigma : list R) (g M0 : R) (i : nat) (s : R) :
  0 < M0 -> nth_error sigma i = Some s ->
  calc_physical_time (Num g) (Num s) (Num M0) <> NaN /\
  (0 < g - 0.5 * s ^ 2 ->
     nth_error (physical_anchor (map Num sigma) (Num g) (Num M0)) i
     = Some (calc_physical_time (Num g) (Num s) (Num M0))) /\
  (g - 0.5 * s ^ 2 <= 0 ->
     calc_physical_time (Num g) (Num s) (Num M0) = PInf /\
     nth_error (physical_anchor (map Num sigma) (Num g) (Num M0)) i = Some NaN).
Proof.
  intros HM Hi.
  assert (Hentry :
    nth_error (physical_anchor (map Num sigma) (Num g) (Num M0)) i
    = Some (physical_anchor_at (Num g) (Num M0) (Num s))).
  { rewrite physical_anchor_map, map_map.
    now rewrite (nth_error_map_Some _ _ _ _ Hi). }
  split; [|split].
  - destruct (Rle_dec (g - 0.5 * s ^ 2) 0) as [H|H].
    + rewrite calc_physical_time_nonpos by assumption. discriminate.
    + rewrite calc_physical_time_pos by lra. discriminate.
  - intros H. rewrite Hentry, calc_physical_time_pos by assumption.
    rewrite physical_anchor_at_pos; [|assumption|]; replace (s * s) with (s ^ 2) by ring;
      [reflexivity | assumption].
  - intros H. split; [now apply calc_physical_time_nonpos|].
    rewrite Hentry, physical_anchor_at_nonpos; [reflexivity|].
    replace (s * s) with (s ^ 2) by ring. assumption.
Qed.

Lemma calc_physical_time_agrees_witness :
  calc_physical_time (Num 0.2) (Num 1) (Num 2) <> NaN /\
  (0 < 0.2 - 0.5 * 1 ^ 2 ->
     nth_error (physical_anchor (map Num [1]) (Num 0.2) (Num 2)) 0
     = Some (calc_physical_time (Num 0.2) (Num 1) (Num 2))) /\
  (0.2 - 0.5 * 1 ^ 2 <= 0 ->
     calc_physical_time (Num 0.2) (Num 1) (Num 2) = PInf /\
     nth_error (physical_anchor (map Num [1]) (Num 0.2) (Num 2)) 0 = Some NaN).
Proof.
  apply (calc_physical_time_agrees [1] 0.2 2 0 1); [lra | reflexivity].
Defined.

(** The guard [+ 1e-6] of [calc_psychological_time]: for a non-negative
    discount rate [k = r + c sigma] the result is a finite number in
    [(0, 1e6]], also at [k = 0]; for [k > 0] it lies strictly below the
    unguarded value [1 / k], by less than [1e-6 / k^2]. *)
Theorem calc_psychological_time_guard (r sigma c : R) :
  0 <= r + c * sigma ->
  calc_psychological_time (Num r) (Num sigma) (Num c)
    = Num (1 / (r + c * sigma + 1e-6)) /\
  0 < 1 / (r + c * sigma + 1e-6) <= 1e6 /\
  (0 < r + c * sigma ->
     1 / (r + c * sigma + 1e-6) < 1 / (r + c * sigma) /\
     1 / (r + c * sigma) - 1 / (r + c * sigma + 1e-6)
       < 1e-6 / ((r + c * sigma) * (r + c * sigma))).
Proof.
  intros Hk. set (k := r + c * sigma) in *.
  split.
  - unfold calc_psychological_time. rewrite fmul_Num, !fadd_Num.
    fold k. apply fdiv_Num. lra.
  - assert (Hq : 1 / (k + 1e-6) * (k + 1e-6) = 1) by (field; lra).
    assert (Hpos : 0 < 1 / (k + 1e-6)) by (apply Rdiv_lt_0_compat; lra).
    split; [split; [exact Hpos | nra]|].
    intros Hk0.
    assert (Hq0 : 1 / k * k = 1) by (field; lra).
    assert (Hpos0 : 0 < 1 / k) by (apply Rdiv_lt_0_compat; lra).
    assert (Hdiff : 1 / k - 1 / (k + 1e-6) = 1e-6 / (k * (k + 1e-6)))
      by (field; lra).
    assert (Hlt : 1e-6 / (k * (k + 1e-6)) < 1e-6 / (k * k)).
    { unfold Rdiv. apply Rmult_lt_compat_l; [lra|].
      apply Rinv_lt_contravar; nra. }
    assert (0 < 1e-6 / (k * (k + 1e-6))).
    { apply Rdiv_lt_0_compat; nra. }
    split; lra.
Qed.

Lemma calc_psychological_time_guard_witness :
  calc_psychological_time (Num 0) (Num 0.3) (Num 0) = Num (1 / (0 + 0 * 0.3 + 1e-6)).
Proof.
  refine (proj1 (calc_psychological_time_guard 0 0.3 0 _)). lra.
Defined.

(** ** The residual of the self-consistent equation *)

(** At zero volatility the risk premium vanishes (for a distribution function
    with [Phi 0 = 1/2]), the residual is [n - 1/r], and it is zero at
    [n = 1/r], the value of the linear anchor at zero volatility. *)
Theorem equation_zero_volatility (Phi : R -> R) (r n : R) :
  Phi 0 = 1 / 2 -> 0 < r -> 0 < n ->
  val (zz_risk_premium Phi (Num 0) (Num n)) = Num 0 /\
  equation Phi (Num 0) (Num r) (Num n) = Ok (Num (n - 1 / r)) /\
  equation Phi (Num 0) (Num r) (Num (1 / r)) = Ok (Num 0).
Proof.
  intros HPhi Hr Hn.
  assert (Hz : forall m, 0 < m ->
            zz_risk_premium Phi (Num 0) (Num m) = NpF (Num 0)).
  { intros m Hm. rewrite zz_risk_premium_log.
    - replace (0 * sqrt m / 4) with 0 by lra. rewrite HPhi.
      replace (2 * (1 - 1 / 2)) with 1 by lra. rewrite ln_1.
      do 2 f_equal. unfold Rdiv. lra.
    - exact Hm.
    - replace (0 * sqrt m / 4) with 0 by lra. rewrite HPhi. lra. }
  assert (He : forall m, 0 < m ->
            equation Phi (Num 0) (Num r) (Num m) = Ok (Num (m - 1 / r))).
  { intros m Hm. unfold equation. rewrite fle_Num, Rleb_gt by lra.
    rewrite (Hz m Hm). cbn [py_radd py_inv]. rewrite fadd_Num.
    rewrite fdiv_Num by lra. cbn [bind]. rewrite fsub_Num.
    do 3 f_equal. f_equal. lra. }
  split; [now rewrite Hz|]. split; [now apply He|].
  assert (Hinv : 0 < 1 / r) by (apply Rdiv_lt_0_compat; lra).
  rewrite (He _ Hinv). do 2 f_equal. lra.
Qed.

Lemma equation_zero_volatility_witness :
  equation Phi_logistic (Num 0) (Num 0.018) (Num (1 / 0.018)) = Ok (Num 0).
Proof.
  refine (proj2 (proj2 (equation_zero_volatility Phi_logistic 0.018 1
                          Phi_logistic_0 _ _))); lra.
Defined.

(** For [sigma >= 0] and [r > 0] (and a distribution function mapping the
    non-negative reals into [[1/2, 1]]) the residual never raises and is never
    NaN: it is [1e6] for [n <= 0], and for [n > 0] a real number [v] with
    [n - 1/r <= v < n].  So the residual is positive beyond [1/r]: no root of
    the equation exceeds [1/r]. *)
Theorem equation_bounds (Phi : R -> R)
    (HPhi : forall x, 0 <= x -> 1 / 2 <= Phi x <= 1) (sigma r : R) :
  0 <= sigma -> 0 < r ->
  (forall n, n <= 0 ->
     equation Phi (Num sigma) (Num r) (Num n) = Ok (Num 1e6)) /\
  (forall n, 0 < n ->
     exists v,
       equation Phi (Num sigma) (Num r) (Num n) = Ok (Num v) /\
       n - 1 / r <= v < n /\
       (1 / r < n -> 0 < v)).
Proof.
  intros Hs Hr. split.
  - intros n Hn. unfold equation. now rewrite fle_Num, Rleb_le.
  - intros n Hn.
    destruct (equation_pos Phi HPhi sigma r n Hs Hr Hn) as (c & Hc & _ & He).
    exists (n - 1 / (r + c)). split; [exact He|].
    assert (Hq : 0 < 1 / (r + c) <= 1 / r).
    { assert (H1 : 1 / (r + c) * (r + c) = 1) by (field; lra).
      assert (H2 : 1 / r * r = 1) by (field; lra).
      assert (0 < 1 / (r + c)) by (apply Rdiv_lt_0_compat; lra).
      assert (0 < 1 / r) by (apply Rdiv_lt_0_compat; lra).
      split; [assumption | nra]. }
    split; [lra|]. intros H. lra.
Qed.

Lemma equation_bounds_witness :
  equation Phi_logistic (Num 0.3) (Num 0.018) (Num 0) = Ok (Num 1e6).
Proof.
  refine (proj1 (equation_bounds Phi_logistic Phi_logistic_upper_half
                   0.3 0.018 _ _) 0 _); lra.
Defined.

(** ** The risk premium: sentinel bound and monotonicity *)

Lemma ln_le_compat (x y : R) : 0 < x -> x <= y -> ln x <= ln y.
Proof.
  intros Hx [Hlt | ->]; [left; now apply ln_increasing | lra].
Qed.

Lemma ln_lt_minus_1 (x : R) : 1 < x -> ln x < x - 1.
Proof.
  intros Hx.
  assert (H : x < exp (x - 1)).
  { pose proof (exp_ineq1 (x - 1) ltac:(lra)). lra. }
  apply ln_increasing in H; [|lra]. now rewrite ln_exp in H.
Qed.

Lemma neg_ln_bound (a : R) : 1e-12 <= a -> - ln a <= 2e6.
Proof.
  intros Ha.
  assert (H0 : 0 < a) by lra.
  rewrite <- ln_Rinv by exact H0.
  assert (Hinv : / a <= 1e12).
  { replace 1e12 with (/ 1e-12) by (field_simplify; lra).
    apply Rinv_le_contravar; lra. }
  assert (Hpos : 0 < / a) by now apply Rinv_0_lt_compat.
  apply (ln_le_compat _ _ Hpos) in Hinv.
  replace 1e12 with (1e6 * 1e6) in Hinv by lra.
  rewrite ln_mult in Hinv by lra.
  pose proof (ln_lt_minus_1 1e6 ltac:(lra)). lra.
Qed.

Section RiskPremiumOrder.
Variable Phi : R -> R.
Hypothesis HPhi : forall x, 0 <= x -> 1 / 2 <= Phi x <= 1.

Lemma zz_risk_premium_bounded (sigma n : R) :
  0 <= sigma -> 2e-6 <= n ->
  exists c, val (zz_risk_premium Phi (Num sigma) (Num n)) = Num c /\
            0 <= c <= 1e12.
Proof.
  intros Hs Hn.
  destruct (zz_risk_premium_cases Phi HPhi sigma n Hs ltac:(lra))
    as [E|(c & Hc & Hdef & E)]; rewrite E.
  - exists 1e12. split; [reflexivity | lra].
  - exists c. split; [reflexivity|]. split; [exact Hc|].
    destruct (Rlt_dec (2 * (1 - Phi (sigma * sqrt n / 4))) 1e-12) as [Ha|Ha].
    + rewrite zz_risk_premium_sentinel in E by lra. discriminate.
    + pose proof (neg_ln_bound (2 * (1 - Phi (sigma * sqrt n / 4)))
                    ltac:(lra)) as Hb.
      subst c. apply Rmult_le_reg_r with n; [lra|].
      unfold Rdiv. rewrite Rmult_assoc, Rinv_l by lra. nra.
Qed.

Hypothesis Hmono : forall x y, 0 <= x -> x <= y -> Phi x <= Phi y.

Lemma zz_risk_premium_increasing (sigma1 sigma2 n : R) :
  0 <= sigma1 -> sigma1 <= sigma2 -> 2e-6 <= n ->
  exists c1 c2,
    val (zz_risk_premium Phi (Num sigma1) (Num n)) = Num c1 /\
    val (zz_risk_premium Phi (Num sigma2) (Num n)) = Num c2 /\
    c1 <= c2.
Proof.
  intros Hs1 Hs12 Hn.
  assert (Hsq : 0 <= sqrt n) by apply sqrt_pos.
  assert (Hx1 : 0 <= sigma1 * sqrt n / 4) by nra.
  assert (Hx12 : sigma1 * sqrt n / 4 <= sigma2 * sqrt n / 4) by nra.
  pose proof (Hmono _ _ Hx1 Hx12) as HP.
  pose proof (HPhi _ Hx1) as HP1.
  pose proof (HPhi (sigma2 * sqrt n / 4) ltac:(lra)) as HP2.
  set (a1 := 2 * (1 - Phi (sigma1 * sqrt n / 4))) in *.
  set (a2 := 2 * (1 - Phi (sigma2 * sqrt n / 4))) in *.
  assert (Ha : a2 <= a1) by (unfold a1, a2; lra).
  destruct (Rlt_dec a1 1e-12) as [H1|H1].
  - exists 1e12, 1e12.
    rewrite !zz_risk_premium_sentinel by (fold a1 a2; lra).
    repeat split. lra.
  - destruct (zz_risk_premium_bounded sigma1 n Hs1 Hn) as (c1 & E1 & Hc1).
    destruct (Rlt_dec a2 1e-12) as [H2|H2].
    + exists c1, 1e12. rewrite E1.
      rewrite zz_risk_premium_sentinel by (fold a2; lra).
      repeat split. lra.
    + exists (- ln a1 / n), (- ln a2 / n).
      rewrite !zz_risk_premium_log by (fold a1 a2; lra).
      fold a1 a2. repeat split.
      pose proof (ln_le_compat a2 a1 ltac:(lra) Ha) as Hl.
      unfold Rdiv. apply Rmult_le_compat_r; [|lra].
      left. apply Rinv_0_lt_compat. lra.
Qed.

End RiskPremiumOrder.

(** For [sigma >= 0] and [n >= 2e-6] the risk premium is a number between 0
    and the sentinel [1e12]: the sentinel dominates the logarithmic branch. *)
Theorem zz_risk_premium_le_sentinel (Phi : R -> R)
    (HPhi : forall x, 0 <= x -> 1 / 2 <= Phi x <= 1) (sigma n : R) :
  0 <= sigma -> 2e-6 <= n ->
  exists c, val (zz_risk_premium Phi (Num sigma) (Num n)) = Num c /\
            0 <= c <= 1e12.
Proof. exact (zz_risk_premium_bounded Phi HPhi sigma n). Qed.

Lemma Phi_logistic_mono (x y : R) :
  0 <= x -> x <= y -> Phi_logistic x <= Phi_logistic y.
Proof.
  intros _ Hxy. unfold Phi_logistic.
  assert (Hx : 0 < exp (- (1.702 * x))) by apply exp_pos.
  assert (Hy : 0 < exp (- (1.702 * y))) by apply exp_pos.
  assert (He : exp (- (1.702 * y)) <= exp (- (1.702 * x))).
  { destruct Hxy as [Hlt | ->]; [left; apply exp_increasing; lra | lra]. }
  unfold Rdiv. rewrite !Rmult_1_l. apply Rinv_le_contravar; lra.
Qed.

Lemma zz_risk_premium_le_sentinel_witness :
  exists c, val (zz_risk_premium Phi_logistic (Num 0.3) (Num 4)) = Num c /\
            0 <= c <= 1e12.
Proof.
  apply (zz_risk_premium_le_sentinel Phi_logistic Phi_logistic_upper_half);
    lra.
Defined.

(** For a non-decreasing distribution function, the risk premium is
    non-decreasing in the volatility at every fixed horizon [n >= 2e-6],
    across both the logarithmic and the sentinel branch. *)
Theorem zz_risk_premium_monotone (Phi : R -> R)
    (HPhi : forall x, 0 <= x -> 1 / 2 <= Phi x <= 1)
    (Hmono : forall x y, 0 <= x -> x <= y -> Phi x <= Phi y)
    (sigma1 sigma2 n : R) :
  0 <= sigma1 -> sigma1 <= sigma2 -> 2e-6 <= n ->
  exists c1 c2,
    val (zz_risk_premium Phi (Num sigma1) (Num n)) = Num c1 /\
    val (zz_risk_premium Phi (Num sigma2) (Num n)) = Num c2 /\
    c1 <= c2.
Proof. exact (zz_risk_premium_increasing Phi HPhi Hmono sigma1 sigma2 n). Qed.

Lemma zz_risk_premium_monotone_witness :
  exists c1 c2,
    val (zz_risk_premium Phi_logistic (Num 0.1) (Num 4)) = Num c1 /\
    val (zz_risk_premium Phi_logistic (Num 0.3) (Num 4)) = Num c2 /\
    c1 <= c2.
Proof.
  apply (zz_risk_premium_monotone Phi_logistic Phi_logistic_upper_half
           Phi_logistic_mono); lra.
Defined.

(** ** The crossing scan of [rate_simulation.py] *)

Lemma nth_map_default {A : Type} (f : A -> fl) (l : list A) (a : A) (j : nat) :
  (j < length l)%nat -> nth j (map f l) NaN = f (nth j l a).
Proof.
  intros H. rewrite (nth_indep _ NaN (f a)) by now rewrite length_map.
  apply map_nth.
Qed.

Lemma calc_psychological_time_Num (r s c : R) :
  0 <= r + c * s ->
  exists v, calc_psychological_time (Num r) (Num s) (Num c) = Num v.
Proof.
  intros H. eexists. unfold calc_psychological_time.
  rewrite fmul_Num, !fadd_Num. apply fdiv_Num. lra.
Qed.

Lemma calc_physical_time_Num_or_PInf (g s M0 : R) :
  0 < M0 ->
  calc_physical_time (Num g) (Num s) (Num M0) = PInf \/
  exists v, calc_physical_time (Num g) (Num s) (Num M0) = Num v.
Proof.
  intros HM. destruct (Rle_dec (g - 0.5 * s ^ 2) 0) as [H|H].
  - left. now apply calc_physical_time_nonpos.
  - right. eexists. apply calc_physical_time_pos; lra.
Qed.

Lemma np_sign_diff_defined (r s c g M0 : R) :
  0 <= r + c * s -> 0 < M0 ->
  exists a,
    np_sign (fsub (calc_psychological_time (Num r) (Num s) (Num c))
                  (calc_physical_time (Num g) (Num s) (Num M0))) = Num a.
Proof.
  intros Hk HM.
  destruct (calc_psychological_time_Num r s c Hk) as [v ->].
  destruct (calc_physical_time_Num_or_PInf g s M0 HM) as [->|[w ->]];
    eexists; reflexivity.
Qed.

Lemma crossing_scan_defined (sigma : list R) (r c g M0 : R) :
  0 < M0 -> Forall (fun s => 0 <= r + c * s) sigma ->
  let n := map (fun s => calc_psychological_time (Num r) (Num s) (Num c)) sigma in
  let et := map (fun s => calc_physical_time (Num g) (Num s) (Num M0)) sigma in
  exists l,
    crossing_indices n et = Ok l /\
    forall i, In i l ->
      (S i < length sigma)%nat /\
      exists a b,
        np_sign (fsub (nth i n NaN) (nth i et NaN)) = Num a /\
        np_sign (fsub (nth (S i) n NaN) (nth (S i) et NaN)) = Num b /\
        a <> b.
Proof.
  intros HM Hk n et.
  destruct (np_sub_same_length n et) as (diff & Hsub & Hlen & Hnth).
  { unfold n, et. now rewrite !length_map. }
  unfold crossing_indices. rewrite Hsub. cbn [bind].
  eexists. split; [reflexivity|].
  intros i Hin.
  destruct (np_where_from_In _ _ _ Hin) as (j & Hj & Hlt & Hc).
  simpl in Hj; subst j.
  assert (Hls : length diff = length sigma)
    by (rewrite Hlen; unfold n; now rewrite length_map).
  split; [lia|].
  rewrite !Hnth in Hc.
  assert (Hdef : forall j, (j < length sigma)%nat ->
            exists a, np_sign (fsub (nth j n NaN) (nth j et NaN)) = Num a).
  { intros j Hj. unfold n, et.
    rewrite !(nth_map_default _ sigma 0 j Hj).
    apply np_sign_diff_defined; [|exact HM].
    rewrite Forall_forall in Hk. apply Hk. now apply nth_In. }
  destruct (Hdef i ltac:(lia)) as [a Ea].
  destruct (Hdef (S i) ltac:(lia)) as [b Eb].
  exists a, b. split; [exact Ea|]. split; [exact Eb|].
  unfold changes in Hc. rewrite Ea, Eb in Hc. rewrite fsub_Num in Hc.
  cbn [truthy] in Hc. apply negb_true_iff, Reqb_false in Hc.
  intros ->. apply Hc. lra.
Qed.

(** Because the scalar engine marks the meltdown region by [+inf] and not by
    NaN, the crossing scan of [rate_simulation.py] raises no exception and
    detects genuine sign changes only: at every index it reports, the signs of
    the two neighbouring differences are defined and different. *)
Theorem crossing_indices_defined (sigma : list R) (r c g M0 : R) :
  0 < M0 -> Forall (fun s => 0 <= r + c * s) sigma ->
  let n := map (fun s => calc_psychological_time (Num r) (Num s) (Num c)) sigma in
  let et := map (fun s => calc_physical_time (Num g) (Num s) (Num M0)) sigma in
  exists l,
    crossing_indices n et = Ok l /\
    forall i, In i l ->
      (S i < length sigma)%nat /\
      exists a b,
        np_sign (fsub (nth i n NaN) (nth i et NaN)) = Num a /\
        np_sign (fsub (nth (S i) n NaN) (nth (S i) et NaN)) = Num b /\
        a <> b.
Proof. exact (crossing_scan_defined sigma r c g M0). Qed.

Lemma crossing_indices_defined_witness :
  exists l,
    crossing_indices
      (map (fun s => calc_psychological_time (Num 0.018) (Num s) (Num 0.2))
           [0.1; 0.7])
      (map (fun s => calc_physical_time (Num 0.2) (Num s) (Num 2)) [0.1; 0.7])
    = Ok l.
Proof.
  destruct (crossing_indices_defined [0.1; 0.7] 0.018 0.2 0.2 2) as (l & H & _).
  - lra.
  - repeat (apply Forall_cons; [lra|]). apply Forall_nil.
  - exists l. exact H.
Defined.

Lemma sigma_range_reals :
  sigma_range = map Num (linspace_reals 0.01 0.70 100) /\
  forall s, In s (linspace_reals 0.01 0.70 100) -> 0.01 <= s <= 0.70.
Proof.
  split; [apply linspace_map_Num|].
  intros s Hs. apply (linspace_reals_range 0.01 0.70 100 s); trivial; [lra|lia].
Qed.

(** The crossing scan of the script itself raises no exception, and every
    index it reports is a pair of grid points with defined, different signs
    of [n_low - et_curve]. *)
Lemma idx_cross_defined :
  exists l,
    idx_cross = Ok l /\
    forall i, In i l ->
      (S i < 100)%nat /\
      exists a b,
        np_sign (fsub (nth i n_low NaN) (nth i et_curve NaN)) = Num a /\
        np_sign (fsub (nth (S i) n_low NaN) (nth (S i) et_curve NaN)) = Num b /\
        a <> b.
Proof.
  destruct sigma_range_reals as (Hgrid & Hrange).
  assert (Hlen : length (linspace_reals 0.01 0.70 100) = 100%nat).
  { unfold linspace_reals. now rewrite length_map, length_seq. }
  destruct (crossing_scan_defined (linspace_reals 0.01 0.70 100)
              r_low 0.2 g_nominal target_multiple) as (l & Hl & Hin).
  - unfold target_multiple. lra.
  - apply Forall_forall. intros s Hs. specialize (Hrange s Hs).
    unfold r_low. nra.
  - exists l. unfold idx_cross, n_low, et_curve. rewrite Hgrid, !map_map.
    split; [exact Hl|]. intros i Hi. rewrite <- Hlen. now apply Hin.
Qed.

(** * Outcomes: undefined values and the solver *)

(** ** The index scan, read backwards *)

Lemma np_where_from_head (d : list fl) : forall k idx rest,
  np_where_from k (np_diff (map np_sign d)) = idx :: rest ->
  exists i,
    idx = (k + i)%nat /\ (S i < length d)%nat /\
    changes (nth i d NaN) (nth (S i) d NaN) = true /\
    forall j, (j < i)%nat -> changes (nth j d NaN) (nth (S j) d NaN) = false.
Proof.
  induction d as [|a d IH]; intros k idx rest H; [discriminate|].
  destruct d as [|b d]; [discriminate|].
  change (map np_sign (a :: b :: d))
    with (np_sign a :: np_sign b :: map np_sign d) in H.
  rewrite np_diff_cons2 in H. cbn [np_where_from] in H.
  destruct (truthy (fsub (np_sign b) (np_sign a))) eqn:Et.
  - injection H as <- _. exists 0%nat.
    split; [lia|]. split; [simpl; lia|]. split; [exact Et|]. intros j Hj. lia.
  - change (np_sign b :: map np_sign d) with (map np_sign (b :: d)) in H.
    destruct (IH _ _ _ H) as (i & -> & Hi & Hc & Hbefore).
    exists (S i). split; [lia|]. split; [simpl in Hi |- *; lia|].
    split; [exact Hc|]. intros [|j] Hj; [exact Et|]. apply Hbefore. lia.
Qed.

Lemma np_where_from_nil_inv (d : list fl) : forall k,
  np_where_from k (np_diff (map np_sign d)) = [] ->
  forall j, (S j < length d)%nat ->
    changes (nth j d NaN) (nth (S j) d NaN) = false.
Proof.
  induction d as [|a d IH]; intros k H j Hj; [simpl in Hj; lia|].
  destruct d as [|b d]; [simpl in Hj; lia|].
  change (map np_sign (a :: b :: d))
    with (np_sign a :: np_sign b :: map np_sign d) in H.
  rewrite np_diff_cons2 in H. cbn [np_where_from] in H.
  destruct (truthy (fsub (np_sign b) (np_sign a))) eqn:Et; [discriminate|].
  destruct j as [|j]; [exact Et|].
  change (np_sign b :: map np_sign d) with (map np_sign (b :: d)) in H.
  apply (IH _ H). simpl in Hj |- *. lia.
Qed.

Lemma changes_false_signs (a b : fl) :
  changes a b = false <->
  exists s, np_sign a = Num s /\ np_sign b = Num s.
Proof.
  unfold changes. split.
  - intros H. destruct (np_sign a) as [sa| | |] eqn:Ea;
      destruct (np_sign b) as [sb| | |] eqn:Eb; simpl in H; try discriminate;
      try (destruct a; discriminate); try (destruct b; discriminate).
    apply negb_false_iff, Reqb_true in H. exists sa.
    split; [reflexivity|]. f_equal. lra.
  - intros (s & -> & ->). simpl. apply negb_false_iff, Reqb_true. lra.
Qed.

Lemma changes_false_same_sign (a b : fl) :
  num_or_nan a -> num_or_nan b -> changes a b = false -> same_sign_pair a b.
Proof.
  intros [->|[ra ->]] [->|[rb ->]] H.
  - now rewrite changes_NaN_l in H.
  - now rewrite changes_NaN_l in H.
  - now rewrite changes_NaN_r in H.
  - exists ra, rb. repeat split. now apply changes_Num_false.
Qed.

Lemma diff_at_num_or_nan (y1 y2 : list fl) (j : nat) :
  Forall num_or_nan y1 -> Forall num_or_nan y2 ->
  num_or_nan (diff_at y1 y2 j).
Proof.
  intros H1 H2. apply fsub_num_or_nan; now apply nth_num_or_nan.
Qed.

Lemma find_intersection_None_iff (x y1 y2 : list fl) :
  length y1 = length y2 ->
  (find_intersection x y1 y2 = Ok None <->
   forall j, (S j < length y1)%nat ->
     changes (diff_at y1 y2 j) (diff_at y1 y2 (S j)) = false).
Proof.
  intros Hy. unfold diff_at.
  destruct (np_sub_same_length y1 y2 Hy) as (diff & Hsub & Hlen & Hnth).
  split.
  - intros H j Hj. unfold find_intersection in H. rewrite Hsub in H.
    cbn [bind] in H. rewrite <- !Hnth.
    destruct (sign_change diff) as [|idx rest] eqn:Hsc.
    + apply (np_where_from_nil_inv diff 0 Hsc). lia.
    + destruct (getitem x idx); cbn [bind] in H; [|discriminate].
      destruct (getitem x (idx + 1)); cbn [bind] in H; [|discriminate].
      destruct (getitem diff idx); cbn [bind] in H; [|discriminate].
      destruct (getitem diff (idx + 1)); cbn [bind] in H; discriminate.
  - intros H. now apply find_intersection_no_change_fl.
Qed.

Lemma find_intersection_outcomes (x : list R) (y1 y2 : list fl) :
  length y1 = length y2 -> length x = length y1 ->
  Forall num_or_nan y1 -> Forall num_or_nan y2 ->
  (find_intersection (map Num x) y1 y2 = Ok None /\
   forall j, (S j < length y1)%nat ->
     same_sign_pair (diff_at y1 y2 j) (diff_at y1 y2 (S j))) \/
  exists i,
    (S i < length y1)%nat /\
    (forall j, (j < i)%nat ->
       same_sign_pair (diff_at y1 y2 j) (diff_at y1 y2 (S j))) /\
    ((find_intersection (map Num x) y1 y2 = Ok (Some NaN) /\
      (diff_at y1 y2 i = NaN \/ diff_at y1 y2 (S i) = NaN)) \/
     exists a b,
       diff_at y1 y2 i = Num a /\ diff_at y1 y2 (S i) = Num b /\
       Rsign a <> Rsign b /\
       find_intersection (map Num x) y1 y2
       = Ok (Some (Num (crossing (nth i x 0) (nth (S i) x 0) a b)))).
Proof.
  intros Hy Hx Hn1 Hn2.
  destruct (np_sub_same_length y1 y2 Hy) as (diff & Hsub & Hlen & Hnth).
  assert (Hsame : forall j, changes (nth j diff NaN) (nth (S j) diff NaN) = false ->
            same_sign_pair (diff_at y1 y2 j) (diff_at y1 y2 (S j))).
  { intros j Hc. rewrite !Hnth in Hc.
    apply changes_false_same_sign; trivial; now apply diff_at_num_or_nan. }
  unfold find_intersection. rewrite Hsub. cbn [bind].
  destruct (sign_change diff) as [|idx rest] eqn:Hsc.
  - left. split; [reflexivity|]. intros j Hj. apply Hsame.
    apply (np_where_from_nil_inv diff 0 Hsc). lia.
  - right. destruct (np_where_from_head diff 0 idx rest Hsc)
      as (i & Hi & Hlt & Hc & Hbefore).
    simpl in Hi; subst idx. exists i.
    split; [lia|]. split; [intros j Hj; apply Hsame; now apply Hbefore|].
    rewrite Nat.add_1_r. rewrite !getitem_map_Num by lia.
    rewrite (getitem_nth diff i NaN), (getitem_nth diff (S i) NaN) by lia.
    cbn [bind]. rewrite !Hnth in Hc |- *. fold (diff_at y1 y2 i) in *.
    fold (diff_at y1 y2 (S i)) in *.
    destruct (diff_at_num_or_nan y1 y2 i Hn1 Hn2) as [E1|[a E1]];
    destruct (diff_at_num_or_nan y1 y2 (S i) Hn1 Hn2) as [E2|[b E2]];
      rewrite E1, E2 in *.
    1-3: left; split; [now rewrite interpolation_NaN | auto].
    right. apply changes_Num_true in Hc.
    exists a, b. split; [reflexivity|]. split; [reflexivity|].
    split; [exact Hc|].
    rewrite !fsub_Num, fmul_Num, fdiv_Num by now apply Rsign_neq_minus.
    reflexivity.
Qed.

(** ** IntersectionFinder: the outcomes on curves with undefined values *)

Lemma find_intersection_nan_pair (x y1 y2 : list fl) (i : nat) :
  length y1 = length y2 -> length x = length y1 -> (S i < length y1)%nat ->
  (forall j, (j < i)%nat ->
     changes (diff_at y1 y2 j) (diff_at y1 y2 (S j)) = false) ->
  isnan (nth i y1 NaN) || isnan (nth i y2 NaN)
    || isnan (nth (S i) y1 NaN) || isnan (nth (S i) y2 NaN) = true ->
  find_intersection x y1 y2 = Ok (Some NaN).
Proof.
  intros Hy Hx Hi Hbefore Hnan. unfold diff_at in Hbefore.
  assert (Hd : isnan (diff_at y1 y2 i) || isnan (diff_at y1 y2 (S i)) = true).
  { unfold diff_at.
    destruct (nth i y1 NaN), (nth i y2 NaN), (nth (S i) y1 NaN),
      (nth (S i) y2 NaN); simpl in Hnan |- *; try discriminate; reflexivity. }
  rewrite (find_intersection_first_fl x y1 y2 i Hy Hx Hi Hbefore).
  - fold (diff_at y1 y2 i). fold (diff_at y1 y2 (S i)).
    now rewrite interpolation_NaN.
  - fold (diff_at y1 y2 i). fold (diff_at y1 y2 (S i)).
    apply orb_true_iff in Hd as [Hd|Hd].
    + destruct (diff_at y1 y2 i); try discriminate. apply changes_NaN_l.
    + destruct (diff_at y1 y2 (S i)); try discriminate. apply changes_NaN_r.
Qed.

(** C5, as the code has it: [find_intersection] does not skip undefined
    values; NaN on either side of a neighbouring pair counts as a sign change.
    On a real grid and curves of equal length whose values are real numbers or
    NaN there are three outcomes.  [None]: no pair is detected, every two
    neighbouring differences are real numbers of the same sign.  NaN: the first
    detected pair has an undefined difference.  A number: the first detected
    pair has two defined differences of different sign, and the result is its
    interpolated crossing, whatever follows it in the curves, undefined values
    included.  Before the first detected pair all differences are defined and
    keep their sign.  The NaN outcome holds for any doubles in the grid and
    the curves. *)
Theorem find_intersection_undefined :
  (forall (x : list R) (y1 y2 : list fl),
     length y1 = length y2 -> length x = length y1 ->
     Forall num_or_nan y1 -> Forall num_or_nan y2 ->
     (find_intersection (map Num x) y1 y2 = Ok None /\
      forall j, (S j < length y1)%nat ->
        same_sign_pair (diff_at y1 y2 j) (diff_at y1 y2 (S j))) \/
     exists i,
       (S i < length y1)%nat /\
       (forall j, (j < i)%nat ->
          same_sign_pair (diff_at y1 y2 j) (diff_at y1 y2 (S j))) /\
       ((find_intersection (map Num x) y1 y2 = Ok (Some NaN) /\
         (diff_at y1 y2 i = NaN \/ diff_at y1 y2 (S i) = NaN)) \/
        exists a b,
          diff_at y1 y2 i = Num a /\ diff_at y1 y2 (S i) = Num b /\
          Rsign a <> Rsign b /\
          find_intersection (map Num x) y1 y2
          = Ok (Some (Num (nth i x 0
                           - a * (nth (S i) x 0 - nth i x 0) / (b - a)))))) /\
  (forall (x y1 y2 : list fl) (i : nat),
     length y1 = length y2 -> length x = length y1 -> (S i < length y1)%nat ->
     (forall j, (j < i)%nat ->
        changes (diff_at y1 y2 j) (diff_at y1 y2 (S j)) = false) ->
     isnan (nth i y1 NaN) || isnan (nth i y2 NaN)
       || isnan (nth (S i) y1 NaN) || isnan (nth (S i) y2 NaN) = true ->
     find_intersection x y1 y2 = Ok (Some NaN)).
Proof.
  split.
  - exact find_intersection_outcomes.
  - exact find_intersection_nan_pair.
Qed.

(** A defined first pair followed by an undefined value: the crossing of the
    first pair is returned. *)
Lemma find_intersection_nan_later :
  find_intersection (map Num [1; 2; 3]) [Num 1; Num 3; Num 3]
                    [Num 2; Num 2; NaN] = Ok (Some (Num 1.5)).
Proof.
  fl_eval. do 3 f_equal.
  replace (3 + - (2) + - (1 + - (2))) with 2 by lra. lra.
Qed.

Lemma find_intersection_undefined_witness :
  exists a b,
    diff_at [Num 1; Num 3; Num 3] [Num 2; Num 2; NaN] 0 = Num a /\
    diff_at [Num 1; Num 3; Num 3] [Num 2; Num 2; NaN] 1 = Num b /\
    Rsign a <> Rsign b /\
    find_intersection (map Num [1; 2; 3]) [Num 1; Num 3; Num 3]
                      [Num 2; Num 2; NaN]
    = Ok (Some (Num (nth 0 [1; 2; 3] 0
                     - a * (nth 1 [1; 2; 3] 0 - nth 0 [1; 2; 3] 0) / (b - a)))).
Proof.
  assert (Hq : forall l : list fl,
            Forall (fun v => v = NaN \/ exists r, v = Num r) l ->
            Forall num_or_nan l) by (intros l H; exact H).
  destruct (proj1 find_intersection_undefined [1; 2; 3]
              [Num 1; Num 3; Num 3] [Num 2; Num 2; NaN] eq_refl eq_refl)
    as [[E _]|(i & Hi & Hbefore & [[E _]|H])].
  - apply Hq. repeat (apply Forall_cons; [right; eexists; reflexivity|]).
    apply Forall_nil.
  - apply Hq. do 2 (apply Forall_cons; [right; eexists; reflexivity|]).
    apply Forall_cons; [now left | apply Forall_nil].
  - rewrite find_intersection_nan_later in E. discriminate.
  - rewrite find_intersection_nan_later in E. discriminate.
  - destruct i as [|i].
    + exact H.
    + exfalso. destruct (Hbefore 0%nat ltac:(lia)) as (ra & rb & Ea & Eb & Hs).
      unfold diff_at in Ea, Eb. cbn [nth] in Ea, Eb.
      rewrite fsub_Num in Ea, Eb. injection Ea as <-. injection Eb as <-.
      revert Hs. Rsign_decide. lra.
Defined.

(** ** IntersectionFinder: when the result is [None] *)

Lemma diff_at_Num (y1 y2 : list R) (j : nat) :
  (j < length y1)%nat -> length y1 = length y2 ->
  diff_at (map Num y1) (map Num y2) j = Num (nth j y1 0 - nth j y2 0).
Proof.
  intros Hj Hy. unfold diff_at.
  rewrite !nth_map_Num by lia. apply fsub_Num.
Qed.

Lemma find_intersection_None_real (x y1 y2 : list R) :
  length y1 = length y2 ->
  (find_intersection (map Num x) (map Num y1) (map Num y2) = Ok None <->
   forall j, (S j < length y1)%nat ->
     Rsign (nth j y1 0 - nth j y2 0) = Rsign (nth (S j) y1 0 - nth (S j) y2 0)).
Proof.
  intros Hy. split.
  - intros H j Hj.
    assert (Hm : length (map Num y1) = length (map Num y2))
      by now rewrite !length_map.
    pose proof (proj1 (find_intersection_None_iff (map Num x) (map Num y1)
                         (map Num y2) Hm) H j) as Hc.
    rewrite length_map in Hc. specialize (Hc Hj).
    rewrite !diff_at_Num in Hc by (trivial; lia).
    now apply changes_Num_false.
  - now apply find_intersection_no_change.
Qed.

Lemma find_intersection_NaN_not_None (x y1 y2 : list fl) (j : nat) :
  length y1 = length y2 -> (2 <= length y1)%nat -> (j < length y1)%nat ->
  diff_at y1 y2 j = NaN ->
  find_intersection x y1 y2 <> Ok None.
Proof.
  intros Hy Hlen Hj Hnan H.
  pose proof (proj1 (find_intersection_None_iff x y1 y2 Hy) H) as Hc.
  destruct j as [|j].
  - specialize (Hc 0%nat ltac:(lia)). rewrite Hnan, changes_NaN_l in Hc.
    discriminate.
  - specialize (Hc j ltac:(lia)). rewrite Hnan, changes_NaN_r in Hc.
    discriminate.
Qed.

Lemma table_B1_row_present (dict : list (R * option fl)) (n : fl) :
  forall lams lam l,
    (forall k, In k lams -> exists v, dict_get dict k = Ok v) ->
    In lam lams -> dict_get dict lam = Ok (Some l) ->
    exists rows r,
      table_B1 lams dict (Some n) = Ok rows /\ In r rows /\
      row_lam r = lam /\ row_lin r = l /\ row_nonlin r = n /\
      row_diff r = fsub l n.
Proof.
  induction lams as [|a lams IH]; intros lam l Hkeys Hin Hl; [destruct Hin|].
  destruct (table_B1_rows dict (Some n) lams) as (rest & Hrest & _).
  { intros k Hk. apply Hkeys. now right. }
  destruct (Hkeys a (or_introl eq_refl)) as [v Hv].
  cbn [table_B1]. rewrite Hv, Hrest. cbn [bind].
  destruct Hin as [->|Hin].
  - rewrite Hl in Hv. injection Hv as <-.
    eexists; eexists. split; [reflexivity|]. split; [now left|].
    repeat split.
  - destruct (IH lam l) as (rows' & r & Hrows' & Hr & Hprops); trivial.
    { intros k Hk. apply Hkeys. now right. }
    rewrite Hrest in Hrows'. injection Hrows' as <-.
    destruct v as [lv|]; eexists; exists r; (split; [reflexivity|]);
      (split; [|exact Hprops]); [now right | exact Hr].
Qed.

(** C8, as the code has it: [find_intersection] returns [None], without
    raising, exactly when no neighbouring pair is detected, that is when every
    two neighbouring differences have defined and equal signs; on real curves,
    exactly when the difference has no sign change.  A NaN difference in
    curves of at least two samples excludes [None].  The Table B-1 loop,
    given a dictionary holding every coefficient, does not raise; it omits a
    row only when the linear or the non-linear equilibrium is [None]; any
    other equilibrium, NaN included, gets its row. *)
Theorem find_intersection_none :
  (forall x y1 y2 : list fl,
     length y1 = length y2 ->
     (find_intersection x y1 y2 = Ok None <->
      forall j, (S j < length y1)%nat ->
        exists s, np_sign (diff_at y1 y2 j) = Num s /\
                  np_sign (diff_at y1 y2 (S j)) = Num s)) /\
  (forall x y1 y2 : list R,
     length y1 = length y2 ->
     (find_intersection (map Num x) (map Num y1) (map Num y2) = Ok None <->
      forall j, (S j < length y1)%nat ->
        Rsign (nth j y1 0 - nth j y2 0)
        = Rsign (nth (S j) y1 0 - nth (S j) y2 0))) /\
  (forall (x y1 y2 : list fl) (j : nat),
     length y1 = length y2 -> (2 <= length y1)%nat -> (j < length y1)%nat ->
     diff_at y1 y2 j = NaN ->
     find_intersection x y1 y2 <> Ok None) /\
  (forall (lams : list R) (dict : list (R * option fl)) (nl : option fl),
     (forall lam, In lam lams -> exists v, dict_get dict lam = Ok v) ->
     exists rows,
       table_B1 lams dict nl = Ok rows /\
       (forall r, In r rows ->
          dict_get dict (row_lam r) = Ok (Some (row_lin r)) /\
          nl = Some (row_nonlin r)) /\
       (forall lam, dict_get dict lam = Ok None ->
          forall r, In r rows -> row_lam r <> lam) /\
       (forall lam l n,
          In lam lams -> dict_get dict lam = Ok (Some l) -> nl = Some n ->
          exists r, In r rows /\ row_lam r = lam /\ row_lin r = l /\
                    row_diff r = fsub l n)).
Proof.
  split; [|split; [|split]].
  - intros x y1 y2 Hy. rewrite (find_intersection_None_iff x y1 y2 Hy).
    split; intros H j Hj; apply changes_false_signs; now apply H.
  - exact find_intersection_None_real.
  - exact find_intersection_NaN_not_None.
  - intros lams dict nl Hkeys.
    destruct (table_B1_rows dict nl lams Hkeys) as (rows & Hrows & Hin).
    exists rows. split; [exact Hrows|]. split; [|split].
    + intros r Hr. destruct (Hin r Hr) as (_ & H2 & H3). now split.
    + intros lam Hnone r Hr E. destruct (Hin r Hr) as (_ & H2 & _).
      rewrite E, Hnone in H2. discriminate.
    + intros lam l n Hlam Hl ->.
      destruct (table_B1_row_present dict n lams lam l Hkeys Hlam Hl)
        as (rows' & r & Hrows' & Hr & H1 & H2 & _ & H4).
      rewrite Hrows in Hrows'. injection Hrows' as <-.
      exists r. now repeat split.
Qed.

Lemma find_intersection_none_witness :
  find_intersection (map Num [0; 1; 2]) (map Num [1; 2; 3]) (map Num [0; 1; 2])
  = Ok None.
Proof.
  apply (proj1 (proj2 find_intersection_none) [0; 1; 2] [1; 2; 3] [0; 1; 2]
           eq_refl).
  intros j Hj. simpl in Hj.
  assert (j = 0%nat \/ j = 1%nat) as [-> | ->] by lia;
    cbn [nth]; Rsign_decide; reflexivity.
Defined.

(** C8, counterexample: the defined differences [2, 1] keep their sign and
    the third sample of the second curve is undefined; the result is NaN, not
    [None], and the table loop prints the row of a NaN equilibrium. *)
Lemma find_intersection_none_counterexample :
  Rsign (3 - 1) = Rsign (3 - 2) /\
  find_intersection [Num 0; Num 1; Num 2] [Num 3; Num 3; Num 3]
                    [Num 1; Num 2; NaN] = Ok (Some NaN) /\
  find_intersection [Num 0; Num 1; Num 2] [Num 3; Num 3; Num 3]
                    [Num 1; Num 2; NaN] <> Ok None /\
  table_B1 [0.2] [(0.2, Some NaN)] (Some (Num 0.5))
  = Ok [mkRow 0.2 NaN (Num 0.5) NaN].
Proof.
  assert (E : find_intersection [Num 0; Num 1; Num 2] [Num 3; Num 3; Num 3]
                [Num 1; Num 2; NaN] = Ok (Some NaN)).
  { fl_eval. reflexivity. }
  split; [Rsign_decide; reflexivity|].
  rewrite E. split; [reflexivity|]. split; [discriminate|].
  cbn [table_B1 dict_get]. rewrite (proj2 (Reqb_true 0.2 0.2)) by reflexivity.
  reflexivity.
Qed.

(** ** SelfConsistentSolver: outcomes *)

Lemma solver_unfold (Phi : R -> R) (root_scalar : root_finder)
    (sigma r guess_lam : fl) :
  psychological_anchor_nonlinear Phi root_scalar sigma r guess_lam
  = solver_outcome
      (root_scalar (equation Phi sigma r)
         (fst (bracket_of sigma r guess_lam))
         (snd (bracket_of sigma r guess_lam)) Bisect 1e-6).
Proof. reflexivity. Qed.

Lemma bracket_of_real (sigma r : R) :
  0 <= sigma -> 0 < r ->
  bracket_of (Num sigma) (Num r) (Num 0.4)
  = (Num (bracket_low_of sigma r), Num (bracket_high_of sigma r)).
Proof.
  intros Hs Hr. unfold bracket_of.
  rewrite fmul_Num, fadd_Num, fdiv_Num by lra.
  rewrite !fmul_Num, pymax_Num, pymin_Num. reflexivity.
Qed.

(** The residual raises when the sentinel meets [r = -1e12]: the division
    [1.0 / (r + c)] is then a division of built-in floats by zero. *)
Lemma equation_raises (Phi : R -> R) (sigma n : R) :
  0 < n -> 2 * (1 - Phi (sigma * sqrt n / 4)) < 1e-12 ->
  equation Phi (Num sigma) (Num (- 1e12)) (Num n) = Raise.
Proof.
  intros Hn Ha. unfold equation. rewrite fle_Num, Rleb_gt by lra.
  rewrite zz_risk_premium_sentinel by assumption.
  cbn [py_radd py_inv fadd]. rewrite (proj2 (Reqb_true _ _)) by lra.
  reflexivity.
Qed.

Lemma equation_sigma_zero (Phi : R -> R) (r m : R) :
  Phi 0 = 1 / 2 -> 0 < r -> 0 < m ->
  equation Phi (Num 0) (Num r) (Num m) = Ok (Num (m - 1 / r)).
Proof.
  intros HPhi Hr Hm. unfold equation. rewrite fle_Num, Rleb_gt by lra.
  rewrite zz_risk_premium_log.
  - replace (0 * sqrt m / 4) with 0 by lra. rewrite HPhi.
    replace (2 * (1 - 1 / 2)) with 1 by lra. rewrite ln_1.
    cbn [py_radd py_inv]. rewrite fadd_Num.
    rewrite fdiv_Num by (unfold Rdiv; lra). cbn [bind]. rewrite fsub_Num.
    do 3 f_equal. unfold Rdiv. f_equal. f_equal. lra.
  - exact Hm.
  - replace (0 * sqrt m / 4) with 0 by lra. rewrite HPhi. lra.
Qed.

Lemma bisect_loop_first_root (f : fl -> exc fl) (fa : fl) (xtol rtol : R)
    (iter : nat) (xa dm : R) :
  f (Num (xa + dm * 0.5)) = Ok (Num 0) ->
  bisect_loop f fa xtol rtol (S iter) (Num xa) (Num dm)
  = Ok (mkRootResults (Num (xa + dm * 0.5)) true).
Proof.
  intros Hm. cbn [bisect_loop]. rewrite fmul_Num, fadd_Num.
  unfold call. rewrite Hm. cbn [bind isnan is_zero].
  rewrite (proj2 (Reqb_true 0 0)) by reflexivity. reflexivity.
Qed.

(** One run of the bisection instance: a sign change at the bracket ends and
    a root at the first midpoint. *)
Lemma bisect_midpoint_root (f : fl -> exc fl) (a b xtol fa fb : R) :
  f (Num a) = Ok (Num fa) -> f (Num b) = Ok (Num fb) -> fa * fb < 0 ->
  f (Num (a + (b - a) * 0.5)) = Ok (Num 0) ->
  bisect f (Num a) (Num b) Bisect xtol
  = Ok (mkRootResults (Num (a + (b - a) * 0.5)) true).
Proof.
  intros Ha Hb Hsign Hm. unfold bisect, call. rewrite Ha, Hb.
  cbn [bind isnan is_zero].
  rewrite (proj2 (Reqb_false fa 0)) by nra.
  rewrite (proj2 (Reqb_false fb 0)) by nra.
  rewrite fmul_Num, flt_Num, Rltb_ge by lra.
  rewrite fsub_Num. apply bisect_loop_first_root. exact Hm.
Qed.

Lemma bracket_zero_volatility :
  bracket_low_of 0 0.038 = 50 / 19 /\ bracket_high_of 0 0.038 = 50.
Proof.
  unfold bracket_low_of, bracket_high_of, n_guess_of.
  replace (0.038 + 0.4 * 0) with 0.038 by lra.
  split.
  - rewrite Rmax_left by lra. lra.
  - rewrite Rmin_right by lra. reflexivity.
Qed.

Lemma bisect_zero_volatility_run :
  bisect (equation Phi_logistic (Num 0) (Num 0.038))
         (Num (bracket_low_of 0 0.038)) (Num (bracket_high_of 0 0.038))
         Bisect 1e-6
  = Ok (mkRootResults (Num (1 / 0.038)) true).
Proof.
  destruct bracket_zero_volatility as [-> ->].
  replace (1 / 0.038) with (50 / 19 + (50 - 50 / 19) * 0.5) by lra.
  apply (bisect_midpoint_root _ _ _ _ (50 / 19 - 1 / 0.038) (50 - 1 / 0.038)).
  - apply equation_sigma_zero; [apply Phi_logistic_0 | lra | lra].
  - apply equation_sigma_zero; [apply Phi_logistic_0 | lra | lra].
  - lra.
  - rewrite equation_sigma_zero by (try apply Phi_logistic_0; lra).
    do 2 f_equal. lra.
Qed.

(** C1: the solver returns the root the root finder reports as converged, and
    NaN in every other case: when the root finder raises, when the residual
    raises at a bracket end or has the same strict sign at both ends (the root
    finder then raises, by its contract), and when no convergence is reported.
    For [sigma >= 0] and [r > 0] a converged root is a finite number [n > 0]
    between the bracket ends, so the solver returns NaN or such a number.  The
    sweep is a total map over the grid: [n_nonlin] holds, for each of the
    [N_POINTS] grid volatilities, the solver's result at that volatility, and
    [valid_mask] records which results are not NaN. *)
Theorem solver_sweep_total (Phi : R -> R) (root_scalar : root_finder)
    (Hrs : bisection_contract root_scalar) :
  (forall sigma r guess_lam : fl,
     let f := equation Phi sigma r in
     let lo := fst (bracket_of sigma r guess_lam) in
     let hi := snd (bracket_of sigma r guess_lam) in
     let res := psychological_anchor_nonlinear Phi root_scalar sigma r guess_lam in
     (forall sol, root_scalar f lo hi Bisect 1e-6 = Ok sol ->
                  converged sol = true -> res = root sol) /\
     (forall sol, root_scalar f lo hi Bisect 1e-6 = Ok sol ->
                  converged sol = false -> res = NaN) /\
     (root_scalar f lo hi Bisect 1e-6 = Raise -> res = NaN) /\
     (f lo = Raise \/ f hi = Raise -> res = NaN) /\
     (forall va vb,
        f lo = Ok (Num va) -> f hi = Ok (Num vb) -> 0 < va * vb -> res = NaN)) /\
  (forall sigma r : R, 0 <= sigma -> 0 < r ->
     let f := equation Phi (Num sigma) (Num r) in
     let lo := bracket_low_of sigma r in
     let hi := bracket_high_of sigma r in
     let res :=
       psychological_anchor_nonlinear Phi root_scalar (Num sigma) (Num r)
         (Num 0.4) in
     bracket_of (Num sigma) (Num r) (Num 0.4) = (Num lo, Num hi) /\
     (res = NaN \/ exists n, res = Num n /\ 0 < n) /\
     (forall sol, root_scalar f (Num lo) (Num hi) Bisect 1e-6 = Ok sol ->
                  converged sol = true ->
                  exists n, res = Num n /\ root sol = Num n /\ 0 < n /\
                            Rmin lo hi <= n <= Rmax lo hi)) /\
  length (n_nonlin Phi root_scalar) = N_POINTS /\
  length (valid_mask Phi root_scalar) = N_POINTS /\
  (forall i, (i < N_POINTS)%nat ->
     exists s,
       nth_error sigma_grid i = Some (Num s) /\
       SIGMA_MIN <= s <= SIGMA_MAX /\
       nth_error (n_nonlin Phi root_scalar) i
       = Some (psychological_anchor_nonlinear Phi root_scalar (Num s) (Num R_)
                 (Num 0.4)) /\
       nth_error (valid_mask Phi root_scalar) i
       = Some (negb (isnan (psychological_anchor_nonlinear Phi root_scalar
                              (Num s) (Num R_) (Num 0.4)))) /\
       (psychological_anchor_nonlinear Phi root_scalar (Num s) (Num R_)
          (Num 0.4) = NaN \/
        exists n,
          psychological_anchor_nonlinear Phi root_scalar (Num s) (Num R_)
            (Num 0.4) = Num n /\ 0 < n)).
Proof.
  split; [|split; [|split; [|split]]].
  - intros sigma r guess_lam f lo hi res. subst f lo hi res.
    rewrite solver_unfold.
    split; [|split; [|split; [|split]]].
    + intros sol H Hconv. rewrite H. cbn [solver_outcome]. now rewrite Hconv.
    + intros sol H Hconv. rewrite H. cbn [solver_outcome]. now rewrite Hconv.
    + intros H. now rewrite H.
    + intros H. now rewrite (contract_raise _ Hrs _ _ _ _ H).
    + intros va vb Ha Hb Hsign.
      now rewrite (contract_sign _ Hrs _ _ _ _ va vb Ha Hb Hsign).
  - intros sigma r Hs Hr f lo hi res. subst f lo hi res.
    split; [now apply bracket_of_real|]. split.
    + destruct (solver_result Phi root_scalar Hrs sigma r Hs Hr)
        as [E|(n & E & _ & Hn)]; [now left | right; now exists n].
    + intros sol Hrun Hconv.
      destruct (contract_bracket _ Hrs _ _ _ _ _ Hrun Hconv) as (x & Hx & Hin).
      exists x. rewrite solver_call by assumption. rewrite Hrun.
      cbn [solver_outcome]. rewrite Hconv.
      split; [exact Hx|]. split; [exact Hx|]. split; [|exact Hin].
      destruct (bracket_pos sigma r Hs Hr) as (Hlo & Hhi & _).
      assert (0 < Rmin (bracket_low_of sigma r) (bracket_high_of sigma r))
        by (apply Rmin_glb_lt; lra).
      lra.
  - unfold n_nonlin, n_nonlin_of, sigma_grid, linspace.
    now rewrite !length_map, length_seq.
  - unfold valid_mask, valid_mask_of, n_nonlin, n_nonlin_of, sigma_grid, linspace.
    now rewrite !length_map, length_seq.
  - intros i Hi.
    destruct sigma_grid_reals as (Hgrid & Hlen & Hrange).
    destruct (nth_error (linspace_reals SIGMA_MIN SIGMA_MAX N_POINTS) i)
      as [s|] eqn:Hs; [|apply nth_error_None in Hs; lia].
    pose proof (Hrange s (nth_error_In _ _ Hs)) as Hsr.
    exists s.
    unfold valid_mask, valid_mask_of, n_nonlin, n_nonlin_of. rewrite Hgrid.
    rewrite !map_map.
    rewrite (nth_error_map_Some Num _ _ _ Hs).
    rewrite (nth_error_map_Some
               (fun x => psychological_anchor_nonlinear Phi root_scalar (Num x)
                           (Num R_) (Num 0.4)) _ _ _ Hs).
    rewrite (nth_error_map_Some
               (fun x => negb (isnan (psychological_anchor_nonlinear Phi
                                        root_scalar (Num x) (Num R_) (Num 0.4))))
               _ _ _ Hs).
    split; [reflexivity|].
    split; [unfold SIGMA_MIN, SIGMA_MAX; lra|].
    split; [reflexivity|]. split; [reflexivity|].
    destruct (solver_result Phi root_scalar Hrs s R_ ltac:(lra)
                ltac:(unfold R_; lra))
      as [E|(n & E & _ & Hn)]; [now left | right; now exists n].
Qed.

(** The theorem at work on the bisection instance: at zero volatility and
    [r = 0.038] the bisection converges at its first midpoint and the solver
    returns [1 / r]; with [r = -1e12] and a distribution function that gives
    the sentinel, the residual raises at the lower bracket end and the solver
    returns NaN. *)
Lemma solver_sweep_total_witness :
  psychological_anchor_nonlinear Phi_logistic bisect (Num 0) (Num 0.038)
    (Num 0.4) = Num (1 / 0.038) /\
  psychological_anchor_nonlinear (fun _ => 1) bisect (Num 0) (Num (- 1e12))
    (Num 0.4) = NaN.
Proof.
  split.
  - destruct (solver_sweep_total Phi_logistic bisect bisect_contract)
      as (_ & H & _).
    destruct (H 0 0.038 ltac:(lra) ltac:(lra)) as (_ & _ & Hconv).
    destruct (Hconv _ bisect_zero_volatility_run eq_refl)
      as (n & Hres & Hroot & _).
    rewrite Hres. cbn [root] in Hroot. symmetry. exact Hroot.
  - destruct (solver_sweep_total (fun _ => 1) bisect bisect_contract)
      as (H & _).
    destruct (H (Num 0) (Num (- 1e12)) (Num 0.4)) as (_ & _ & _ & Hraise & _).
    apply Hraise. left.
    unfold bracket_of. cbn [fst].
    rewrite fmul_Num, fadd_Num, fdiv_Num by lra.
    rewrite fmul_Num, pymax_Num.
    apply equation_raises.
    + pose proof (Rmax_r (0.1 * (1 / (- 1e12 + 0.4 * 0))) 0.5). lra.
    + lra.
Defined.
